(** * sigma-tracker: the statistics engine of [src/App.jsx]

    A shallow embedding of the return calculator, the two z-score
    normalizers, the date-range filter and the signal list, followed by the
    properties the specification states about them.

    Numbers.  A JavaScript number is an IEEE 754 binary64 value, so the
    model computes on Rocq's primitive [float], whose operations are the
    binary64 ones ([FloatAxioms]).  Array lengths and loop indices are
    integers below 2^32 and are kept in [nat]; [of_nat] injects them where
    the source mixes them with fractional values.

    Dates.  The proxy hands out dates as ["YYYY-MM-DD"] strings and the
    source compares them with the relational operators on strings, that is
    lexicographically by code unit: [String.ltb] and [String.leb].

    Errors.  Reading a field of [xs[i]] when [i] is out of range raises a
    [TypeError]; the loops that index an array are therefore written in the
    [option] monad, [None] standing for the exception (or for a loop that
    ran out of fuel, where fuel bounds an index loop). *)

From Stdlib Require Import ZArith QArith Qabs Lia Bool String Ascii.
From Stdlib Require Import Sorting.Sorted Permutation.
From Stdlib Require Import Floats.
From stdpp Require Import base tactics option list.

Local Open Scope string_scope.
Local Open Scope list_scope.
Local Open Scope nat_scope.

(** ** JavaScript numbers *)

Module JS.

(** An array length or index read as a number. *)
Definition of_nat (n : nat) : float :=
  PrimFloat.of_uint63 (Uint63.of_Z (Z.of_nat n)).

(** Truthiness of a number: [0], [-0] and [NaN] are falsy. *)
Definition truthy (x : float) : bool :=
  negb (PrimFloat.eqb x 0 || PrimFloat.is_nan x).

(** [a || b] on numbers. *)
Definition or (a b : float) : float := if truthy a then a else b.

(** [x ** 2]; engines compute the square as the product [x * x]. *)
Definition square (x : float) : float := (x * x)%float.

(** [xs.slice(start, end)] for natural indices: both ends are clamped to
    the length and an empty range gives the empty array. *)
Definition slice {A} (xs : list A) (start end_ : nat) : list A :=
  take (end_ - start) (drop start xs).

(** [xs.reduce((a, b) => a + b, 0)]. *)
Definition sum (vals : list float) : float :=
  foldl (fun a b => (a + b)%float) 0%float vals.

(** [xs.reduce((a, b) => a + (b - mean) ** 2, 0)]. *)
Definition sum_sq_dev (mean : float) (vals : list float) : float :=
  foldl (fun a b => (a + square (b - mean))%float) 0%float vals.

(** [!s] on a string: only the empty string is falsy. *)
Definition str_falsy (s : string) : bool := String.eqb s "".

End JS.

(** ** Data model *)

Record PricePoint := { p_date : string; close : float }.

Record PeriodReturn := { r_ret : float; r_date : string }.

(** A return extended by the normalizers: [{...r, z}] in full-sample mode,
    [{...r, z, localMean, localStd}] in rolling mode. *)
Record NormalizedPoint := {
  ret : float;
  date : string;
  z : float;
  localMean : option float;
  localStd : option float
}.

Record StatsResult := { mean : float; std : float; data : list NormalizedPoint }.

(** ** Return calculator *)

Definition step_of (period : string) : nat :=
  if String.eqb period "daily" then 1
  else if String.eqb period "weekly" then 5
  else 21.

(** The body of the [for] loop of [computeReturns] at index [i]. *)
Definition return_at (prices : list PricePoint) (step i : nat) : option PeriodReturn :=
  cur ← prices !! i;
  prev ← prices !! (i - step);
  Some {| r_ret := ((close cur - close prev) / close prev)%float;
          r_date := p_date cur |}.

(** [for (let i = ...; i < prices.length; i += step) returns.push(...)],
    entered with the current [i] and the array built so far. *)
Fixpoint returns_loop (fuel : nat) (prices : list PricePoint) (step i : nat)
    (returns : list PeriodReturn) : option (list PeriodReturn) :=
  if i <? length prices then
    match fuel with
    | O => None
    | S fuel' =>
        r ← return_at prices step i;
        returns_loop fuel' prices step (i + step) (returns ++ [r])
    end
  else Some returns.

Definition computeReturns (prices : list PricePoint) (period : string)
    : option (list PeriodReturn) :=
  let step := step_of period in
  returns_loop (length prices) prices step step [].

(** ** Full-sample normalizer *)

Definition computeStatsFullSample (returns : list PeriodReturn) : StatsResult :=
  let n := length returns in
  if n =? 0 then {| mean := 0; std := 0; data := [] |}
  else
    let vals := map r_ret returns in
    let mean := (JS.sum vals / JS.of_nat n)%float in
    let variance :=
      (JS.sum_sq_dev mean vals / JS.or (JS.of_nat n - 1) 1)%float in
    let std := PrimFloat.sqrt variance in
    {| mean := mean;
       std := std;
       data := map (fun r =>
                 {| ret := r_ret r; date := r_date r;
                    z := if (std =? 0)%float then 0%float
                         else ((r_ret r - mean) / std)%float;
                    localMean := None; localStd := None |}) returns |}.

(** ** Rolling-window normalizer *)

(** The variables the loop of [computeStatsRolling] updates. *)
Record RollState := {
  rs_data : list NormalizedPoint;
  totalMean : float;
  totalStd : float;
  validCount : float
}.

(** The window the source slices at index [i]: [returns.slice(0, i + 1)]
    in the first branch, [returns.slice(i - windowSize, i)] in the second. *)
Definition warmup_slice (returns : list PeriodReturn) (i : nat) : list float :=
  map r_ret (JS.slice returns 0 (i + 1)).

Definition steady_slice (returns : list PeriodReturn) (windowSize i : nat) : list float :=
  map r_ret (JS.slice returns (i - windowSize) i).

(** One iteration of the loop, both branches as the source writes them. *)
Definition rolling_step (returns : list PeriodReturn) (windowSize : nat)
    (st : RollState) (i : nat) : option RollState :=
  if i <? windowSize then
    let slice := warmup_slice returns i in
    let n := length slice in
    let mean := (JS.sum slice / JS.of_nat n)%float in
    let variance :=
      if 1 <? n then (JS.sum_sq_dev mean slice / (JS.of_nat n - 1))%float
      else 0%float in
    let std := PrimFloat.sqrt variance in
    cur ← returns !! i;
    let z := if (std =? 0)%float then 0%float
             else ((r_ret cur - mean) / std)%float in
    Some {| rs_data := rs_data st ++
              [ {| ret := r_ret cur; date := r_date cur; z := z;
                   localMean := Some mean; localStd := Some std |} ];
            totalMean := (totalMean st + mean)%float;
            totalStd := (totalStd st + std)%float;
            validCount := (validCount st + 1)%float |}
  else
    let slice := steady_slice returns windowSize i in
    let n := length slice in
    let mean := (JS.sum slice / JS.of_nat n)%float in
    let variance :=
      (JS.sum_sq_dev mean slice / JS.or (JS.of_nat n - 1) 1)%float in
    let std := PrimFloat.sqrt variance in
    cur ← returns !! i;
    let z := if (std =? 0)%float then 0%float
             else ((r_ret cur - mean) / std)%float in
    Some {| rs_data := rs_data st ++
              [ {| ret := r_ret cur; date := r_date cur; z := z;
                   localMean := Some mean; localStd := Some std |} ];
            totalMean := (totalMean st + mean)%float;
            totalStd := (totalStd st + std)%float;
            validCount := (validCount st + 1)%float |}.

(** [for (let i = 0; i < returns.length; i++)]: the indices are run through
    in order, an exception in the body ends the loop. *)
Fixpoint rolling_loop (returns : list PeriodReturn) (windowSize : nat)
    (indices : list nat) (st : RollState) : option RollState :=
  match indices with
  | [] => Some st
  | i :: rest =>
      st' ← rolling_step returns windowSize st i;
      rolling_loop returns windowSize rest st'
  end.

Definition computeStatsRolling (returns : list PeriodReturn) (windowSize : nat)
    : option StatsResult :=
  st ← rolling_loop returns windowSize (seq 0 (length returns))
         {| rs_data := []; totalMean := 0; totalStd := 0; validCount := 0 |};
  let mean := if (0 <? validCount st)%float
              then (totalMean st / validCount st)%float else 0%float in
  let std := if (0 <? validCount st)%float
             then (totalStd st / validCount st)%float else 0%float in
  Some {| mean := mean; std := std; data := rs_data st |}.

(** ** Range filter and signal list *)

(** [a >= b] and [a <= b] on strings are the negations of [a < b] and
    [b < a]. *)
Definition str_ge (a b : string) : bool := negb (String.ltb a b).
Definition str_le (a b : string) : bool := negb (String.ltb b a).

(** The [filteredData] memo of [App]. *)
Definition filterRange (allData : list NormalizedPoint) (startDate endDate : string)
    : list NormalizedPoint :=
  if JS.str_falsy startDate || JS.str_falsy endDate then allData
  else List.filter (fun d => str_ge (date d) startDate && str_le (date d) endDate)
         allData.

(** [Math.abs(d.z) >= threshold]. *)
Definition is_signal (threshold : float) (d : NormalizedPoint) : bool :=
  (threshold <=? PrimFloat.abs (z d))%float.

(** The comparator handed to [sort]: [(a, b) => Math.abs(b.z) - Math.abs(a.z)]. *)
Definition by_magnitude (a b : NormalizedPoint) : float :=
  (PrimFloat.abs (z b) - PrimFloat.abs (z a))%float.

(** [Array.prototype.sort(cmp)].  ECMAScript requires a stable sort: [a]
    is moved behind [b] only when [cmp(a, b) > 0], and a result of [0] or
    [NaN] leaves the two in their original order.  For a comparator that is
    consistent every such algorithm returns the same array; insertion from
    the right is the one written down here. *)
Fixpoint sort_insert {A} (cmp : A -> A -> float) (x : A) (sorted : list A) : list A :=
  match sorted with
  | [] => [x]
  | y :: rest =>
      if (0 <? cmp x y)%float then y :: sort_insert cmp x rest
      else x :: sorted
  end.

Definition js_sort {A} (cmp : A -> A -> float) (xs : list A) : list A :=
  foldr (sort_insert cmp) [] xs.

(** The signal list rendered by [App]:
    [filteredData.filter(...).sort(...)]. *)
Definition listSignals (filteredData : list NormalizedPoint) (threshold : float)
    : list NormalizedPoint :=
  js_sort by_magnitude (List.filter (is_signal threshold) filteredData).

(** ** Vocabulary of the specification *)

(** Dates are ordered as the source orders them: as strings. *)
Definition date_lt (a b : string) : Prop := String.ltb a b = true.

(** A price series ascending by date without duplicate dates: each point is
    dated strictly before the next one. *)
Definition prices_ascending (prices : list PricePoint) : Prop :=
  Sorted (fun a b => date_lt (p_date a) (p_date b)) prices.

(** A return series strictly ascending by date: every point is dated
    strictly before every later one. *)
Definition returns_ascending (returns : list PeriodReturn) : Prop :=
  StronglySorted (fun a b => date_lt (r_date a) (r_date b)) returns.

(** The statistics each branch of [rolling_step] derives from its slice,
    as a pair (mean, std), and the point it pushes for the return [cur]. *)
Definition warmup_stats (slice : list float) : float * float :=
  let n := length slice in
  let mean := (JS.sum slice / JS.of_nat n)%float in
  let variance :=
    if 1 <? n then (JS.sum_sq_dev mean slice / (JS.of_nat n - 1))%float
    else 0%float in
  (mean, PrimFloat.sqrt variance).

Definition steady_stats (slice : list float) : float * float :=
  let n := length slice in
  let mean := (JS.sum slice / JS.of_nat n)%float in
  let variance :=
    (JS.sum_sq_dev mean slice / JS.or (JS.of_nat n - 1) 1)%float in
  (mean, PrimFloat.sqrt variance).

Definition local_stats (returns : list PeriodReturn) (windowSize i : nat)
    : float * float :=
  if i <? windowSize then warmup_stats (warmup_slice returns i)
  else steady_stats (steady_slice returns windowSize i).

Definition rolling_point (stats : float * float) (cur : PeriodReturn)
    : NormalizedPoint :=
  {| ret := r_ret cur; date := r_date cur;
     z := if (stats.2 =? 0)%float then 0%float
          else ((r_ret cur - stats.1) / stats.2)%float;
     localMean := Some stats.1; localStd := Some stats.2 |}.

(** The invariant of a normalized point: its z-score is the distance of its
    return from [usedMean] in units of [usedStd], and [0] when [usedStd] is
    zero.  Equality with zero is the one of the language ([===] on numbers),
    under which [-0] is zero and [NaN] is not. *)
Definition z_invariant (usedMean usedStd : float) (p : NormalizedPoint) : Prop :=
  ((usedStd =? 0)%float = false -> z p = ((ret p - usedMean) / usedStd)%float) /\
  ((usedStd =? 0)%float = true -> z p = 0%float).

(** The point the full-sample normalizer derives from the return [r] once
    [mean] and [std] are known. *)
Definition full_point (mean std : float) (r : PeriodReturn) : NormalizedPoint :=
  {| ret := r_ret r; date := r_date r;
     z := if (std =? 0)%float then 0%float else ((r_ret r - mean) / std)%float;
     localMean := None; localStd := None |}.

(** An output point carries the date and the return of an input point. *)
Definition same_point (r : PeriodReturn) (p : NormalizedPoint) : Prop :=
  date p = r_date r /\ ret p = r_ret r.

(** The rolling invariant reads the statistics off the point itself. *)
Definition local_z_invariant (p : NormalizedPoint) : Prop :=
  exists m s, localMean p = Some m /\ localStd p = Some s /\ z_invariant m s p.

(** Two return series carry the same returns at the indices [lo <= j < hi]. *)
Definition agree_on (lo hi : nat) (returns returns' : list PeriodReturn) : Prop :=
  forall j, lo <= j < hi -> r_ret <$> returns !! j = r_ret <$> returns' !! j.

(** The magnitude the signal list is ordered by, the descending order on
    it, and the points tied at the magnitude [v]. *)
Definition magnitude (p : NormalizedPoint) : float := PrimFloat.abs (z p).

Definition descending (a b : NormalizedPoint) : Prop :=
  (magnitude b <=? magnitude a)%float = true.

Definition tied_at (v : float) (p : NormalizedPoint) : bool :=
  (magnitude p =? v)%float.

(** The date bounds of the range filter, both inclusive. *)
Definition in_range (startDate endDate : string) (p : NormalizedPoint) : bool :=
  String.leb startDate (date p) && String.leb (date p) endDate.

(** ** Binary64 numbers as ordered keys

    A number that is not [NaN] is ranked by a triple of integers compared
    lexicographically: the class (negative infinity, negative, zero,
    positive, positive infinity), then exponent and mantissa, both negated
    for negative numbers.  The two zeros share a key. *)
Definition sf_key (x : spec_float) : option (Z * Z * Z) :=
  match x with
  | S754_nan => None
  | S754_zero _ => Some (0, 0, 0)%Z
  | S754_infinity s => Some (if s then (-2)%Z else 2%Z, 0%Z, 0%Z)
  | S754_finite s m e =>
      Some (if s then ((-1)%Z, (- e)%Z, Z.neg m) else (1%Z, e, Z.pos m))
  end.

Definition key_lt (a b : Z * Z * Z) : Prop :=
  let '(a1, a2, a3) := a in
  let '(b1, b2, b3) := b in
  (a1 < b1 \/ (a1 = b1 /\ (a2 < b2 \/ (a2 = b2 /\ a3 < b3))))%Z.

Definition fkey (x : float) : option (Z * Z * Z) := sf_key (Prim2SF x).

(** The number one, mantissa 2^52 and exponent -52. *)
Definition SFone64 : spec_float := S754_finite false 4503599627370496 (-52).

(** A number that is not zero and carries the sign [s]. *)
Definition signed (s : bool) (x : spec_float) : Prop :=
  match x with
  | S754_finite s' _ _ | S754_infinity s' => s' = s
  | _ => False
  end.

(** ** Decimal readings of a number

    The exact rational value of a finite binary64 number, and the test that
    it agrees with the decimal [v] to four decimal places, that is, lies
    within half a unit of the fourth place. *)
Definition float_to_Q (x : float) : option Q :=
  match Prim2SF x with
  | S754_zero _ => Some 0%Q
  | S754_finite s m e =>
      let mag := match e with
                 | Z0 => (Z.pos m # 1)%Q
                 | Z.pos k => (Z.pos m * 2 ^ Z.pos k # 1)%Q
                 | Z.neg k => (Z.pos m # 2 ^ k)%Q
                 end in
      Some (if s then (- mag)%Q else mag)
  | _ => None
  end.

Definition reads_as (x : float) (v : Q) : bool :=
  match float_to_Q x with
  | Some q => Qle_bool (Qabs (q - v)) (5 # 100000)
  | None => false
  end.

(** ** Sample data

    The price series of the specification's concrete scenario, one price a
    day, and the returns the daily calculator derives from it. *)

Definition scenario_prices : list PricePoint :=
  [ {| p_date := "2024-01-01"; close := 100 |};
    {| p_date := "2024-01-02"; close := 102 |};
    {| p_date := "2024-01-03"; close := 101 |};
    {| p_date := "2024-01-04"; close := 105 |};
    {| p_date := "2024-01-05"; close := 90 |} ].

Definition scenario_returns : list PeriodReturn :=
  [ {| r_ret := (102 - 100) / 100; r_date := "2024-01-02" |};
    {| r_ret := (101 - 102) / 102; r_date := "2024-01-03" |};
    {| r_ret := (105 - 101) / 101; r_date := "2024-01-04" |};
    {| r_ret := (90 - 105) / 105; r_date := "2024-01-05" |} ].

(** A price series that gains ten percent a day: its three daily returns
    are the same number, the binary64 number nearest to one tenth. *)
Definition steady_growth_prices : list PricePoint :=
  [ {| p_date := "2024-01-01"; close := 1000 |};
    {| p_date := "2024-01-02"; close := 1100 |};
    {| p_date := "2024-01-03"; close := 1210 |};
    {| p_date := "2024-01-04"; close := 1331 |} ].

Definition tenth : float := (1 / 10)%float.

Definition steady_growth_returns : list PeriodReturn :=
  [ {| r_ret := tenth; r_date := "2024-01-02" |};
    {| r_ret := tenth; r_date := "2024-01-03" |};
    {| r_ret := tenth; r_date := "2024-01-04" |} ].

(** ** The data flow of [App]

    The memoized values between the loaded prices and the chart, and the
    counters shown in the header.  [priceData] is [null] until a ticker has
    loaded. *)

(** The [returns] memo. *)
Definition app_returns (priceData : option (list PricePoint)) (period : string)
    : option (list PeriodReturn) :=
  match priceData with
  | None => Some []
  | Some prices => computeReturns prices period
  end.

(** The memo that yields [mean], [std] and [allData]. *)
Definition app_stats (sigmaMode : string) (rollingWindow : nat)
    (returns : list PeriodReturn) : option StatsResult :=
  if String.eqb sigmaMode "rolling" then computeStatsRolling returns rollingWindow
  else Some (computeStatsFullSample returns).

(** [filteredData], from the state of the component. *)
Definition app_filteredData (priceData : option (list PricePoint))
    (period sigmaMode : string) (rollingWindow : nat) (startDate endDate : string)
    : option (list NormalizedPoint) :=
  returns ← app_returns priceData period;
  stats ← app_stats sigmaMode rollingWindow returns;
  Some (filterRange (data stats) startDate endDate).

(** The date range [loadTicker] leaves once the prices have arrived: the
    first and the last date of a non-empty series, the range as it was
    otherwise. *)
Definition loadTicker_range (prices : list PricePoint) (startDate endDate : string)
    : string * string :=
  match prices with
  | [] => (startDate, endDate)
  | first :: _ => (p_date first, p_date (List.last prices first))
  end.

Definition MAX_SIGMA_SCALE : float := 5%float.

(** [beyondThreshold] and [clippedBars]. *)
Definition beyondThreshold (filteredData : list NormalizedPoint) (threshold : float)
    : nat :=
  length (List.filter (is_signal threshold) filteredData).

Definition is_clipped (d : NormalizedPoint) : bool :=
  (MAX_SIGMA_SCALE <? PrimFloat.abs (z d))%float.

Definition clippedBars (filteredData : list NormalizedPoint) : nat :=
  length (List.filter is_clipped filteredData).

(** A number without a sign to compare against zero: a zero or [NaN]. *)
Definition unsigned (x : spec_float) : Prop :=
  match x with
  | S754_zero _ | S754_nan => True
  | _ => False
  end.

(** The z-score of [p] is on the side of zero on which its return is of
    the mean [m]. *)
Definition sign_agrees (m : float) (p : NormalizedPoint) : Prop :=
  ((0 <? z p)%float = true -> (m <? ret p)%float = true) /\
  ((z p <? 0)%float = true -> (ret p <? m)%float = true).

(** [validCount] after one pass over [points]: one added per point. *)
Definition count_up (start : float) {A} (points : list A) : float :=
  foldl (fun c _ => (c + 1)%float) start points.

(** The sum [totalMean] or [totalStd] accumulates, from [start]. *)
Definition sum_from (start : float) (vals : list float) : float :=
  foldl (fun a b => (a + b)%float) start vals.

(** ** The proxy: from the provider's arrays to prices

    Both proxies (the serverless handler and the development server) build
    the price series with the same loop over the provider's [timestamp]
    array and the [close] array of its first quote.  A close is a number or
    [null]; an index past the end of [closes] reads [undefined], which
    [!= null] rejects like [null].  The date comes from the platform:
    [isoDate ms] stands for
    [new Date(ms).toISOString().split('T')[0]], which raises a [RangeError]
    ([None]) on a time value that is no date. *)
Section PriceBuilder.
Variable isoDate : float -> option string.

(** The point pushed for the timestamp [t] and the close [c]. *)
Definition dated (tc : float * float) : option PricePoint :=
  d ← isoDate (tc.1 * 1000)%float;
  Some {| p_date := d; close := tc.2 |}.

(** [for (let i = 0; i < timestamps.length; i++)
       if (closes[i] != null) prices.push(...)]. *)
Fixpoint build_loop (timestamps : list float) (closes : list (option float))
    (indices : list nat) (prices : list PricePoint) : option (list PricePoint) :=
  match indices with
  | [] => Some prices
  | i :: rest =>
      match closes !! i with
      | Some (Some c) =>
          t ← timestamps !! i;
          p ← dated (t, c);
          build_loop timestamps closes rest (prices ++ [p])
      | _ => build_loop timestamps closes rest prices
      end
  end.

Definition buildPrices (timestamps : list float) (closes : list (option float))
    : option (list PricePoint) :=
  build_loop timestamps closes (seq 0 (length timestamps)) [].

End PriceBuilder.

(** The timestamps that have a close, each with its close, in order. *)
Definition with_close (timestamps : list float) (closes : list (option float))
    : list (float * float) :=
  omap (fun tc : float * option float => (fun c => (tc.1, c)) <$> tc.2)
       (zip timestamps closes).

(** ** Bar geometry *)

(** [Math.max(a, b)]: [NaN] if either is, else the larger, [+0] counting
    as larger than [-0]. *)
Definition js_max (a b : float) : float :=
  if PrimFloat.is_nan a || PrimFloat.is_nan b then nan
  else if (a <? b)%float
          || (PrimFloat.Leibniz.eqb b zero && PrimFloat.Leibniz.eqb a neg_zero)
       then b
       else a.

(** The [barWidth] memo; [0x1.cp1] is 3.5 and [0x1.8p0] is 1.5. *)
Definition barWidth (filteredData : list NormalizedPoint) : float :=
  let c := length filteredData in
  if c <=? 15 then 28%float
  else if c <=? 30 then 18%float
  else if c <=? 60 then 10%float
  else if c <=? 120 then 6%float
  else if c <=? 250 then 0x1.cp1%float
  else js_max 0x1.8p0 (800 / JS.of_nat c)%float.

(** [gap]: [Math.max(1, barWidth * 0.2)], with the binary64 number nearest
    to 0.2 written out. *)
Definition gap (filteredData : list NormalizedPoint) : float :=
  js_max 1 (barWidth filteredData * 0x1.999999999999ap-3)%float.

(** * Properties *)

(** ** Strings and sorted lists *)

Lemma ascii_compare_lt_trans (a b c : ascii) :
  Ascii.compare a b = Lt -> Ascii.compare b c = Lt -> Ascii.compare a c = Lt.
Proof.
  unfold Ascii.compare. rewrite !N.compare_lt_iff. lia.
Qed.

Lemma string_compare_lt_trans (s1 s2 s3 : string) :
  String.compare s1 s2 = Lt -> String.compare s2 s3 = Lt ->
  String.compare s1 s3 = Lt.
Proof.
  revert s2 s3. induction s1 as [|a s1 IH]; intros [|b s2] [|c s3]; simpl;
    try congruence.
  destruct (Ascii.compare a b) eqn:Hab; try congruence;
    destruct (Ascii.compare b c) eqn:Hbc; try congruence; intros H12 H23.
  - apply Ascii.compare_eq_iff in Hab, Hbc. subst.
    assert (Hcc : Ascii.compare c c = Eq)
      by (unfold Ascii.compare; apply N.compare_refl).
    rewrite Hcc. eauto.
  - apply Ascii.compare_eq_iff in Hab. subst. now rewrite Hbc.
  - apply Ascii.compare_eq_iff in Hbc. subst. now rewrite Hab.
  - now rewrite (ascii_compare_lt_trans a b c).
Qed.

Lemma date_lt_trans (a b c : string) : date_lt a b -> date_lt b c -> date_lt a c.
Proof.
  unfold date_lt, String.ltb. intros Hab Hbc.
  destruct (String.compare a b) eqn:E1; try discriminate.
  destruct (String.compare b c) eqn:E2; try discriminate.
  now rewrite (string_compare_lt_trans a b c).
Qed.

Section SortedLookup.
Context {A : Type} (R : A -> A -> Prop).

Lemma StronglySorted_lookup (l : list A) (i j : nat) (a b : A) :
  StronglySorted R l -> i < j -> l !! i = Some a -> l !! j = Some b -> R a b.
Proof.
  intros Hs. revert i j. induction Hs as [|x l Hs IH Hx]; intros i j Hij Hi Hj.
  - discriminate.
  - destruct j as [|j]; [lia|]. destruct i as [|i]; simpl in *.
    + inversion Hi; subst. rewrite Forall_forall in Hx. apply Hx.
      eapply list_elem_of_lookup_2; eauto.
    + apply (IH i j); auto. lia.
Qed.

Lemma lookup_StronglySorted (l : list A) :
  (forall i j a b, i < j -> l !! i = Some a -> l !! j = Some b -> R a b) ->
  StronglySorted R l.
Proof.
  induction l as [|x l IH]; intros H; constructor.
  - apply IH. intros i j a b Hij Hi Hj. apply (H (S i) (S j)); auto. lia.
  - apply Forall_forall. intros y Hy.
    apply list_elem_of_lookup_1 in Hy as [k Hk].
    apply (H 0 (S k)); auto. lia.
Qed.
End SortedLookup.

(** ** Return calculator *)

Lemma step_of_cases (period : string) :
  step_of period = 1 \/ step_of period = 5 \/ step_of period = 21.
Proof.
  unfold step_of. destruct (String.eqb period "daily"); auto.
  destruct (String.eqb period "weekly"); auto.
Qed.

Lemma step_of_pos (period : string) : 0 < step_of period.
Proof. destruct (step_of_cases period) as [-> | [-> | ->]]; lia. Qed.

Lemma return_at_Some (prices : list PricePoint) (step i : nat) :
  i < length prices ->
  exists r, return_at prices step i = Some r.
Proof.
  intros Hi. unfold return_at.
  destruct (lookup_lt_is_Some_2 prices i Hi) as [cur ->].
  destruct (lookup_lt_is_Some_2 prices (i - step) ltac:(lia)) as [prev ->].
  simpl. eauto.
Qed.

Lemma return_at_date (prices : list PricePoint) (step i : nat) (r : PeriodReturn) :
  return_at prices step i = Some r ->
  exists p, prices !! i = Some p /\ r_date r = p_date p.
Proof.
  unfold return_at. destruct (prices !! i) as [cur|]; simpl; [|discriminate].
  destruct (prices !! (i - step)) as [prev|]; simpl; [|discriminate].
  intros [= <-]. eauto.
Qed.

(** The loop never runs out of fuel when the fuel covers the indices that
    are left, never raises, and pushes the return at [i], [i + step], ... *)
Lemma returns_loop_spec (prices : list PricePoint) (step : nat) :
  0 < step ->
  forall fuel i acc,
    length prices <= i + fuel * step ->
    exists out,
      returns_loop fuel prices step i acc = Some (acc ++ out) /\
      length out = (length prices + step - 1 - i) / step /\
      forall k r, out !! k = Some r ->
                  return_at prices step (i + k * step) = Some r.
Proof.
  intros Hstep. induction fuel as [|fuel IH]; intros i acc Hfuel.
  - exists []. simpl. destruct (Nat.ltb_spec i (length prices)); [lia|].
    rewrite app_nil_r. repeat split.
    + simpl. symmetry. apply Nat.div_small. lia.
    + intros k r Hk. discriminate.
  - simpl. destruct (Nat.ltb_spec i (length prices)) as [Hlt|Hge].
    + destruct (return_at_Some prices step i Hlt) as [r Hr]. rewrite Hr. simpl.
      destruct (IH (i + step) (acc ++ [r])) as (out & Hout & Hlen & Hnth);
        [lia|].
      exists (r :: out). rewrite Hout, <- app_assoc. repeat split.
      * simpl. rewrite Hlen.
        replace (length prices + step - 1 - i)
          with (1 * step + (length prices + step - 1 - (i + step))) by lia.
        rewrite Nat.div_add_l by lia. lia.
      * intros [|k] r' Hk; simpl in Hk.
        -- inversion Hk; subst. now rewrite Nat.add_0_r.
        -- apply Hnth in Hk. rewrite <- Hk. f_equal. lia.
    + exists []. rewrite app_nil_r. repeat split.
      * simpl. symmetry. apply Nat.div_small. lia.
      * intros k r Hk. discriminate.
Qed.

(** C1.  For a non-empty price series ascending by date, [computeReturns]
    returns (it neither raises nor runs out of fuel) a series of
    floor((N - 1) / step) returns, N the number of prices and step 1 for
    "daily", 5 for "weekly" and 21 for "monthly"; the series is strictly
    ascending by date, and it is empty when N <= step. *)
Theorem computeReturns_length_order (prices : list PricePoint) (period : string) :
  prices <> [] ->
  prices_ascending prices ->
  step_of "daily" = 1 /\ step_of "weekly" = 5 /\ step_of "monthly" = 21 /\
  exists returns,
    computeReturns prices period = Some returns /\
    Z.of_nat (length returns)
      = ((Z.of_nat (length prices) - 1) / Z.of_nat (step_of period))%Z /\
    returns_ascending returns /\
    (length prices <= step_of period -> returns = []).
Proof.
  intros Hne Hasc. do 3 (split; [reflexivity|]).
  pose proof (step_of_pos period) as Hstep.
  assert (Hlen : 0 < length prices) by (destruct prices; [congruence|simpl; lia]).
  destruct (returns_loop_spec prices (step_of period) Hstep
              (length prices) (step_of period) [])
    as (out & Hout & Hcount & Hnth); [nia|].
  exists out. unfold computeReturns. simpl in Hout. rewrite Hout.
  replace (length prices + step_of period - 1 - step_of period)
    with (length prices - 1) in Hcount by lia.
  repeat split.
  - rewrite Hcount, Nat2Z.inj_div, Nat2Z.inj_sub by lia. reflexivity.
  - apply lookup_StronglySorted. intros k1 k2 a b Hk Ha Hb.
    apply Hnth, return_at_date in Ha as (pa & Hpa & ->).
    apply Hnth, return_at_date in Hb as (pb & Hpb & ->).
    assert (Hss : StronglySorted (fun a b => date_lt (p_date a) (p_date b)) prices).
    { apply Sorted_StronglySorted; [|exact Hasc].
      intros x y z0. apply date_lt_trans. }
    eapply (StronglySorted_lookup _ prices _ _ pa pb Hss); [|eassumption..].
    nia.
  - intros Hshort. apply length_zero_iff_nil. rewrite Hcount.
    apply Nat.div_small. lia.
Qed.

Lemma computeReturns_length_order_witness :
  step_of "daily" = 1 /\ step_of "weekly" = 5 /\ step_of "monthly" = 21 /\
  exists returns,
    computeReturns scenario_prices "daily" = Some returns /\
    Z.of_nat (length returns)
      = ((Z.of_nat (length scenario_prices) - 1) / Z.of_nat (step_of "daily"))%Z /\
    returns_ascending returns /\
    (length scenario_prices <= step_of "daily" -> returns = []).
Proof.
  apply (computeReturns_length_order scenario_prices "daily").
  - discriminate.
  - repeat constructor.
Defined.

(** ** Rolling-window normalizer: what the loop builds *)

Lemma rolling_step_unfold (returns : list PeriodReturn) (windowSize : nat)
    (st : RollState) (i : nat) :
  rolling_step returns windowSize st i =
  (cur ← returns !! i;
   let stats := local_stats returns windowSize i in
   Some {| rs_data := rs_data st ++ [rolling_point stats cur];
           totalMean := (totalMean st + stats.1)%float;
           totalStd := (totalStd st + stats.2)%float;
           validCount := (validCount st + 1)%float |}).
Proof.
  unfold rolling_step, local_stats.
  destruct (i <? windowSize); reflexivity.
Qed.

Lemma rolling_loop_data (returns : list PeriodReturn) (windowSize : nat) :
  forall n a st,
    a + n <= length returns ->
    exists st',
      rolling_loop returns windowSize (seq a n) st = Some st' /\
      rs_data st' =
        rs_data st ++
        imap (fun k => rolling_point (local_stats returns windowSize (a + k)))
             (take n (drop a returns)).
Proof.
  induction n as [|n IH]; intros a st Hle.
  - exists st. simpl. now rewrite app_nil_r.
  - destruct (lookup_lt_is_Some_2 returns a ltac:(lia)) as [cur Hcur].
    simpl. rewrite rolling_step_unfold, Hcur. simpl.
    edestruct (IH (S a)) as (st' & Hloop & Hdata); [lia|].
    exists st'. split; [exact Hloop|].
    rewrite Hdata. simpl. rewrite <- app_assoc. f_equal.
    rewrite (drop_S _ _ _ Hcur). simpl. rewrite Nat.add_0_r. f_equal.
    apply imap_ext. intros k x _. simpl. do 2 f_equal. lia.
Qed.

(** [computeStatsRolling] always returns, and its [data] holds, at each
    index, the point of the branch taken there. *)
Lemma computeStatsRolling_data (returns : list PeriodReturn) (windowSize : nat) :
  exists res,
    computeStatsRolling returns windowSize = Some res /\
    data res = imap (fun i => rolling_point (local_stats returns windowSize i)) returns.
Proof.
  unfold computeStatsRolling.
  edestruct (rolling_loop_data returns windowSize (length returns) 0)
    as (st' & -> & Hdata); [simpl; lia|].
  simpl. eexists. split; [reflexivity|]. simpl. rewrite Hdata. simpl.
  now rewrite drop_0, firstn_all.
Qed.

Lemma rolling_point_same (stats : float * float) (cur : PeriodReturn) :
  same_point cur (rolling_point stats cur).
Proof. split; reflexivity. Qed.

Lemma rolling_point_invariant (stats : float * float) (cur : PeriodReturn) :
  local_z_invariant (rolling_point stats cur).
Proof.
  exists stats.1, stats.2. do 2 (split; [reflexivity|]).
  unfold z_invariant. simpl.
  destruct (stats.2 =? 0)%float; split; intros; congruence.
Qed.

Lemma Forall2_imap_r {A B} (P : A -> B -> Prop) (f : nat -> A -> B) (l : list A) :
  (forall i x, l !! i = Some x -> P x (f i x)) -> Forall2 P l (imap f l).
Proof.
  revert f. induction l as [|x l IH]; intros f H; simpl; constructor.
  - apply (H 0 x). reflexivity.
  - apply IH. intros i y Hy. apply (H (S i) y Hy).
Qed.

Lemma Forall_imap {A B} (P : B -> Prop) (f : nat -> A -> B) (l : list A) :
  (forall i x, l !! i = Some x -> P (f i x)) -> Forall P (imap f l).
Proof.
  revert f. induction l as [|x l IH]; intros f H; simpl; constructor.
  - apply (H 0 x). reflexivity.
  - apply IH. intros i y Hy. apply (H (S i) y Hy).
Qed.

(** ** Full-sample normalizer: what [data] holds *)

Lemma computeStatsFullSample_data (returns : list PeriodReturn) :
  data (computeStatsFullSample returns) =
  map (full_point (mean (computeStatsFullSample returns))
                  (std (computeStatsFullSample returns))) returns.
Proof. destruct returns; reflexivity. Qed.

Lemma full_point_invariant (m s : float) (r : PeriodReturn) :
  z_invariant m s (full_point m s r).
Proof.
  unfold z_invariant. simpl. destruct (s =? 0)%float; split; intros; congruence.
Qed.

(** C10.  Both normalizers keep the input points in place: [data] has one
    point per input return, in the input's order, with the date and the
    return of the input point at the same index. *)
Theorem normalizers_preserve_points (returns : list PeriodReturn) (windowSize : nat) :
  Forall2 same_point returns (data (computeStatsFullSample returns)) /\
  exists res,
    computeStatsRolling returns windowSize = Some res /\
    Forall2 same_point returns (data res).
Proof.
  split.
  - rewrite computeStatsFullSample_data.
    apply Forall2_fmap_r, Forall_Forall2_diag, Forall_forall.
    intros x _. split; reflexivity.
  - destruct (computeStatsRolling_data returns windowSize) as (res & Hres & Hdata).
    exists res. split; [exact Hres|]. rewrite Hdata.
    apply Forall2_imap_r. intros i x _. apply rolling_point_same.
Qed.

(** C6.  Every point a normalizer produces satisfies the z-score
    invariant: against the result's [mean] and [std] in full-sample mode,
    against the point's own [localMean] and [localStd] in rolling mode. *)
Theorem normalized_points_invariant (returns : list PeriodReturn) (windowSize : nat) :
  Forall (z_invariant (mean (computeStatsFullSample returns))
                      (std (computeStatsFullSample returns)))
         (data (computeStatsFullSample returns)) /\
  exists res,
    computeStatsRolling returns windowSize = Some res /\
    Forall local_z_invariant (data res).
Proof.
  split.
  - rewrite computeStatsFullSample_data.
    apply Forall_fmap, Forall_forall. intros x _. apply full_point_invariant.
  - destruct (computeStatsRolling_data returns windowSize) as (res & Hres & Hdata).
    exists res. split; [exact Hres|]. rewrite Hdata.
    apply Forall_imap. intros i x _. apply rolling_point_invariant.
Qed.

(** C9.  On the empty return series the rolling normalizer returns
    [{ mean: 0, std: 0, data: [] }] whatever the window size, which is what
    the full-sample normalizer returns on it: with [validCount] at zero the
    two divisions are not evaluated. *)
Theorem computeStatsRolling_empty (windowSize : nat) :
  computeStatsRolling [] windowSize = Some {| mean := 0; std := 0; data := [] |} /\
  computeStatsRolling [] windowSize = Some (computeStatsFullSample []).
Proof. split; reflexivity. Qed.

(** ** Rolling-window normalizer: the windows *)

Lemma warmup_slice_take (returns : list PeriodReturn) (i : nat) :
  warmup_slice returns i = map r_ret (take (i + 1) returns).
Proof.
  unfold warmup_slice, JS.slice. now rewrite Nat.sub_0_r, drop_0.
Qed.

Lemma steady_slice_take (returns : list PeriodReturn) (windowSize i : nat) :
  windowSize <= i ->
  steady_slice returns windowSize i =
  map r_ret (take windowSize (drop (i - windowSize) returns)).
Proof.
  intros Hle. unfold steady_slice, JS.slice. do 2 f_equal. lia.
Qed.

Lemma steady_slice_length (returns : list PeriodReturn) (windowSize i : nat) :
  windowSize <= i -> i <= length returns ->
  length (steady_slice returns windowSize i) = windowSize.
Proof.
  intros Hle Hi. rewrite steady_slice_take by exact Hle.
  rewrite length_map, length_take, length_drop. lia.
Qed.

(** The steady window reads the returns at [i - windowSize .. i) only. *)
Lemma steady_slice_agree (returns returns' : list PeriodReturn) (windowSize i : nat) :
  windowSize <= i ->
  agree_on (i - windowSize) i returns returns' ->
  steady_slice returns windowSize i = steady_slice returns' windowSize i.
Proof.
  intros Hle Hagree. rewrite !steady_slice_take by exact Hle.
  apply list_eq. intros k. rewrite !list_lookup_fmap.
  destruct (decide (k < windowSize)) as [Hk|Hk].
  - rewrite !lookup_take_lt, !lookup_drop by exact Hk. apply Hagree. lia.
  - rewrite !lookup_take_ge by lia. reflexivity.
Qed.

Lemma agree_on_insert (returns : list PeriodReturn) (lo i : nat)
    (changed : PeriodReturn) :
  agree_on lo i returns (<[i := changed]> returns).
Proof.
  intros j Hj. rewrite list_lookup_insert_ne by lia. reflexivity.
Qed.

Lemma rolling_point_at (returns : list PeriodReturn) (windowSize i : nat)
    (cur : PeriodReturn) :
  returns !! i = Some cur ->
  exists res,
    computeStatsRolling returns windowSize = Some res /\
    data res !! i = Some (rolling_point (local_stats returns windowSize i) cur).
Proof.
  intros Hcur.
  destruct (computeStatsRolling_data returns windowSize) as (res & Hres & Hdata).
  exists res. split; [exact Hres|].
  rewrite Hdata, list_lookup_imap, Hcur. reflexivity.
Qed.

Lemma local_stats_steady (returns : list PeriodReturn) (windowSize i : nat) :
  windowSize <= i ->
  local_stats returns windowSize i =
  steady_stats (steady_slice returns windowSize i).
Proof.
  intros Hle. unfold local_stats.
  destruct (Nat.ltb_spec i windowSize); [lia|reflexivity].
Qed.

Lemma local_stats_warmup (returns : list PeriodReturn) (windowSize i : nat) :
  i < windowSize ->
  local_stats returns windowSize i =
  warmup_stats (map r_ret (take (i + 1) returns)).
Proof.
  intros Hlt. unfold local_stats.
  destruct (Nat.ltb_spec i windowSize); [|lia].
  now rewrite warmup_slice_take.
Qed.

(** C2.  In the steady region the rolling normalizer is causal.  For
    [windowSize <= i] the point at [i] carries the mean and the std of the
    [windowSize] returns at [i - windowSize .. i); a series with the same
    returns at those indices gets the same [localMean] and [localStd] at
    [i], and so does the series in which [returns[i]] is replaced. *)
Theorem rolling_steady_causal (returns : list PeriodReturn) (windowSize i : nat) :
  windowSize <= i ->
  i < length returns ->
  let window := map r_ret (take windowSize (drop (i - windowSize) returns)) in
  length window = windowSize /\
  exists res p,
    computeStatsRolling returns windowSize = Some res /\
    data res !! i = Some p /\
    localMean p = Some (steady_stats window).1 /\
    localStd p = Some (steady_stats window).2 /\
    (forall returns',
        i < length returns' ->
        agree_on (i - windowSize) i returns returns' ->
        exists res' p',
          computeStatsRolling returns' windowSize = Some res' /\
          data res' !! i = Some p' /\
          localMean p' = localMean p /\ localStd p' = localStd p) /\
    (forall changed,
        exists res' p',
          computeStatsRolling (<[i := changed]> returns) windowSize = Some res' /\
          data res' !! i = Some p' /\
          localMean p' = localMean p /\ localStd p' = localStd p).
Proof.
  intros Hle Hi window.
  assert (Hgen : forall returns',
             i < length returns' ->
             agree_on (i - windowSize) i returns returns' ->
             exists res' p',
               computeStatsRolling returns' windowSize = Some res' /\
               data res' !! i = Some p' /\
               localMean p' = Some (steady_stats window).1 /\
               localStd p' = Some (steady_stats window).2).
  { intros returns' Hi' Hagree.
    destruct (lookup_lt_is_Some_2 returns' i Hi') as [cur' Hcur'].
    destruct (rolling_point_at returns' windowSize i cur' Hcur') as (res' & Hres' & Hp').
    exists res', (rolling_point (local_stats returns' windowSize i) cur').
    rewrite local_stats_steady in * by exact Hle.
    rewrite <- (steady_slice_agree returns returns') in * by assumption.
    rewrite steady_slice_take in * by exact Hle. auto. }
  split.
  { subst window. rewrite <- steady_slice_take by exact Hle.
    apply steady_slice_length; lia. }
  destruct (Hgen returns Hi) as (res & p & Hres & Hp & Hm & Hs);
    [intros j _; reflexivity|].
  exists res, p. repeat split; try assumption.
  - intros returns' Hi' Hagree.
    destruct (Hgen returns' Hi' Hagree) as (res' & p' & ? & ? & ? & ?).
    exists res', p'. repeat split; congruence.
  - intros changed.
    destruct (Hgen (<[i := changed]> returns)) as (res' & p' & ? & ? & ? & ?).
    + now rewrite length_insert.
    + apply agree_on_insert.
    + exists res', p'. repeat split; congruence.
Qed.

Lemma rolling_steady_causal_witness :
  let window := map r_ret (take 2 (drop (3 - 2) scenario_returns)) in
  length window = 2 /\
  exists res p,
    computeStatsRolling scenario_returns 2 = Some res /\
    data res !! 3 = Some p /\
    localMean p = Some (steady_stats window).1 /\
    localStd p = Some (steady_stats window).2 /\
    (forall returns',
        3 < length returns' ->
        agree_on (3 - 2) 3 scenario_returns returns' ->
        exists res' p',
          computeStatsRolling returns' 2 = Some res' /\
          data res' !! 3 = Some p' /\
          localMean p' = localMean p /\ localStd p' = localStd p) /\
    (forall changed,
        exists res' p',
          computeStatsRolling (<[3 := changed]> scenario_returns) 2 = Some res' /\
          data res' !! 3 = Some p' /\
          localMean p' = localMean p /\ localStd p' = localStd p).
Proof.
  apply (rolling_steady_causal scenario_returns 2 3); simpl; lia.
Defined.

(** C3.  In the warm-up region, [i < windowSize], the point at [i] is
    normalized over the expanding window [returns[0..i]], which has [i + 1]
    elements.  With a window size of 2 on four returns, points 0 and 1 use
    the expanding windows, point 2 the window [returns[0], returns[1]] and
    point 3 the window [returns[1], returns[2]]. *)
Theorem rolling_warmup_window (returns : list PeriodReturn) (windowSize i : nat)
    (cur : PeriodReturn) :
  i < windowSize ->
  returns !! i = Some cur ->
  let window := take (i + 1) returns in
  (length window = i + 1 /\
   (forall j, j <= i -> window !! j = returns !! j) /\
   exists res,
     computeStatsRolling returns windowSize = Some res /\
     data res !! i = Some (rolling_point (warmup_stats (map r_ret window)) cur)) /\
  (forall r0 r1 r2 r3, exists m s,
     computeStatsRolling [r0; r1; r2; r3] 2 =
     Some {| mean := m; std := s;
             data :=
               [ rolling_point (warmup_stats [r_ret r0]) r0;
                 rolling_point (warmup_stats [r_ret r0; r_ret r1]) r1;
                 rolling_point (steady_stats [r_ret r0; r_ret r1]) r2;
                 rolling_point (steady_stats [r_ret r1; r_ret r2]) r3 ] |}).
Proof.
  intros Hlt Hcur window. split; [|intros; do 2 eexists; reflexivity].
  assert (Hi : i < length returns) by (eapply lookup_lt_Some; eauto).
  repeat split.
  - subst window. rewrite length_take. lia.
  - intros j Hj. subst window. apply lookup_take_lt. lia.
  - destruct (rolling_point_at returns windowSize i cur Hcur) as (res & Hres & Hp).
    exists res. split; [exact Hres|].
    now rewrite local_stats_warmup in Hp by exact Hlt.
Qed.

Lemma rolling_warmup_window_witness :
  let window := take (1 + 1) scenario_returns in
  (length window = 1 + 1 /\
   (forall j, j <= 1 -> window !! j = scenario_returns !! j) /\
   exists res,
     computeStatsRolling scenario_returns 2 = Some res /\
     data res !! 1 =
       Some (rolling_point (warmup_stats (map r_ret window))
               {| r_ret := (101 - 102) / 102; r_date := "2024-01-03" |})) /\
  (forall r0 r1 r2 r3, exists m s,
     computeStatsRolling [r0; r1; r2; r3] 2 =
     Some {| mean := m; std := s;
             data :=
               [ rolling_point (warmup_stats [r_ret r0]) r0;
                 rolling_point (warmup_stats [r_ret r0; r_ret r1]) r1;
                 rolling_point (steady_stats [r_ret r0; r_ret r1]) r2;
                 rolling_point (steady_stats [r_ret r1; r_ret r2]) r3 ] |}).
Proof.
  apply (rolling_warmup_window scenario_returns 2 1); [lia | reflexivity].
Defined.

(** ** Binary64: rounding keeps the sign, comparison is an order *)

Section Binary64.
Local Open Scope Z_scope.

(** A mantissa of [d] binary digits lies between 2^(d-1) and 2^d. *)
Lemma digits2_pos_bounds (m : positive) :
  2 ^ (Z.pos (digits2_pos m) - 1) <= Z.pos m < 2 ^ Z.pos (digits2_pos m).
Proof.
  induction m as [m IH|m IH|]; simpl digits2_pos.
  - rewrite Pos2Z.inj_succ, Z.pow_succ_r by lia.
    replace (Z.succ (Z.pos (digits2_pos m)) - 1)
      with (Z.succ (Z.pos (digits2_pos m) - 1)) by lia.
    rewrite Z.pow_succ_r by lia. lia.
  - rewrite Pos2Z.inj_succ, Z.pow_succ_r by lia.
    replace (Z.succ (Z.pos (digits2_pos m)) - 1)
      with (Z.succ (Z.pos (digits2_pos m) - 1)) by lia.
    rewrite Z.pow_succ_r by lia. lia.
  - simpl. lia.
Qed.

(** Shifting right by [n] bits leaves at least the quotient by 2^n. *)
Lemma shr_1_lower (mrs : shr_record) (k : Z) :
  2 * k <= shr_m mrs -> k <= shr_m (shr_1 mrs).
Proof.
  destruct mrs as [m r s]. destruct m as [|[p|p|]|[p|p|]]; cbn [shr_1 shr_m]; lia.
Qed.

Lemma iter_shr_1_lower (n : positive) :
  forall (mrs : shr_record) (k : Z),
    2 ^ Z.pos n * k <= shr_m mrs -> k <= shr_m (SpecFloat.iter_pos shr_1 n mrs).
Proof.
  induction n as [n IH|n IH|]; intros mrs k Hk; simpl.
  - apply IH, IH, shr_1_lower.
    replace (Z.pos n~1) with (Z.pos n + Z.pos n + 1) in Hk by lia.
    rewrite !Z.pow_add_r, Z.pow_1_r in Hk by lia. lia.
  - apply IH, IH.
    replace (Z.pos n~0) with (Z.pos n + Z.pos n) in Hk by lia.
    rewrite Z.pow_add_r in Hk by lia. lia.
  - apply shr_1_lower. exact Hk.
Qed.

Lemma shr_record_of_loc_m (m : Z) (l : location) :
  shr_m (shr_record_of_loc m l) = m.
Proof. destruct l as [|[]]; reflexivity. Qed.

(** From the least exponent on, aligning a positive mantissa to the
    format neither exhausts it nor leaves the exponent range below. *)
Lemma shr_fexp_pos (m e : Z) (l : location) :
  0 < m -> emin <= e ->
  0 < shr_m (fst (shr_fexp prec emax m e l)) /\
  emin <= snd (shr_fexp prec emax m e l).
Proof.
  intros Hm He. unfold shr_fexp, shr.
  destruct m as [|p|p]; try lia. simpl Zdigits2.
  pose proof (digits2_pos_bounds p) as Hd.
  set (d := Z.pos (digits2_pos p)) in *.
  destruct (fexp prec emax (d + e) - e) as [|q|q] eqn:Hn; simpl;
    rewrite ?shr_record_of_loc_m; try (split; lia).
  split.
  - apply (Z.lt_le_trans 0 1); [lia|]. apply iter_shr_1_lower.
    rewrite shr_record_of_loc_m, Z.mul_1_r.
    apply Z.le_trans with (2 ^ (d - 1)); [|lia].
    apply Z.pow_le_mono_r; [lia|].
    unfold fexp in Hn. unfold prec in *. lia.
  - unfold fexp in *. lia.
Qed.

Lemma round_nearest_even_ge (m : Z) (l : location) : m <= round_nearest_even m l.
Proof. destruct l as [|[]]; simpl; try lia. destruct (Z.even m); lia. Qed.

Lemma binary_round_aux_signed (s : bool) (m e : Z) (l : location) :
  0 < m -> emin <= e -> signed s (binary_round_aux prec emax s m e l).
Proof.
  intros Hm He. unfold binary_round_aux.
  destruct (shr_fexp_pos m e l Hm He) as [H1 H1e].
  destruct (shr_fexp prec emax m e l) as [mrs' e']. simpl in H1, H1e.
  pose proof (round_nearest_even_ge (shr_m mrs') (loc_of_shr_record mrs')) as Hr.
  set (m2 := round_nearest_even _ _) in *.
  destruct (shr_fexp_pos m2 e' loc_Exact ltac:(lia) H1e) as [H2 _].
  destruct (shr_fexp prec emax m2 e' loc_Exact) as [mrs'' e'']. simpl in H2.
  destruct (shr_m mrs''); try lia.
  destruct (e'' <=? emax - prec); reflexivity.
Qed.

Lemma binary_round_signed (s : bool) (m : positive) (e : Z) :
  emin <= e -> signed s (binary_round prec emax s m e).
Proof.
  intros He. unfold binary_round, shl_align.
  destruct (fexp prec emax (Z.pos (digits2_pos m) + e) - e) eqn:Hn;
    apply binary_round_aux_signed; try lia.
  unfold fexp in *. lia.
Qed.

(** Rounding an integer multiple of 2^e, [e] at least the least exponent,
    gives a number of the integer's sign, and zero only for zero. *)
Lemma binary_normalize_sign (m e : Z) :
  emin <= e ->
  match m with
  | Z0 => binary_normalize prec emax m e false = S754_zero false
  | Zpos _ => signed false (binary_normalize prec emax m e false)
  | Zneg _ => signed true (binary_normalize prec emax m e false)
  end.
Proof.
  intros He. destruct m; simpl; [reflexivity| |]; now apply binary_round_signed.
Qed.

Lemma pos_iter_xO (m d : positive) :
  Z.pos (Pos.iter xO m d) = Z.pos m * 2 ^ Z.pos d.
Proof.
  induction d as [|d IH] using Pos.peano_ind.
  - simpl. lia.
  - rewrite Pos.iter_succ, Pos2Z.inj_xO, IH, Pos2Z.inj_succ, Z.pow_succ_r by lia. lia.
Qed.

Lemma shl_align_fst (m : positive) (e e' : Z) :
  e' <= e -> Z.pos (fst (shl_align m e e')) = Z.pos m * 2 ^ (e - e').
Proof.
  intros Hle. unfold shl_align.
  destruct (e' - e) as [|d|d] eqn:Hd; try lia; simpl fst.
  - replace (e - e') with 0 by lia. lia.
  - replace (e - e') with (Z.pos d) by lia. apply pos_iter_xO.
Qed.

Lemma bounded_inv (m : positive) (e : Z) :
  bounded prec emax m e = true ->
  emin <= e /\ Z.pos m < 2 ^ prec /\ (emin < e -> 2 ^ (prec - 1) <= Z.pos m).
Proof.
  unfold bounded, canonical_mantissa, fexp. intros H.
  apply andb_true_iff in H as [H _]. apply Z.eqb_eq in H.
  pose proof (digits2_pos_bounds m) as Hd.
  set (d := Z.pos (digits2_pos m)) in *.
  split; [lia|]. split.
  - apply Z.lt_le_trans with (2 ^ d); [lia|]. apply Z.pow_le_mono_r; lia.
  - intros He. replace (prec - 1) with (d - 1) by lia. lia.
Qed.

(** The sign of a difference of two non-negative binary64 numbers is the
    outcome of their comparison. *)
Lemma SFsub_finite_sign (mx my : positive) (ex ey : Z) :
  bounded prec emax mx ex = true ->
  bounded prec emax my ey = true ->
  let r := SF64sub (S754_finite false mx ex) (S754_finite false my ey) in
  match SFcompare (S754_finite false mx ex) (S754_finite false my ey) with
  | Some Lt => signed true r
  | Some Eq => r = S754_zero false
  | Some Gt => signed false r
  | None => False
  end.
Proof.
  intros Hx Hy r.
  apply bounded_inv in Hx as (Hex & Hmx & Hnx), Hy as (Hey & Hmy & Hny).
  subst r. unfold SF64sub, SFsub. cbn [cond_Zopp].
  set (ez := Z.min ex ey).
  assert (Hez : emin <= ez) by (subst ez; lia).
  pose proof (binary_normalize_sign
                (Z.pos (fst (shl_align mx ex ez)) - Z.pos (fst (shl_align my ey ez)))
                ez Hez) as Hsign.
  rewrite !shl_align_fst in * by (subst ez; lia).
  set (D := Z.pos mx * 2 ^ (ex - ez) - Z.pos my * 2 ^ (ey - ez)) in *.
  cbn [SFcompare]. rewrite Pos.compare_cont_spec. unfold Pos.switch_Eq.
  destruct (Z.compare_spec ex ey) as [Heq|Hlt|Hgt].
  - assert (HD : D = Z.pos mx - Z.pos my).
    { subst D ez. rewrite Heq, Z.min_id, Z.sub_diag, Z.pow_0_r. lia. }
    destruct (Pos.compare_spec mx my); destruct D; try lia; exact Hsign.
  - assert (HD : D < 0).
    { subst D ez. rewrite Z.min_l, Z.sub_diag, Z.pow_0_r by lia.
      assert (HP : 2 ^ 1 <= 2 ^ (ey - ex)) by (apply Z.pow_le_mono_r; lia).
      specialize (Hny ltac:(lia)). revert Hmx Hny HP.
      generalize (2 ^ (ey - ex)). intros P.
      change (2 ^ prec) with 9007199254740992.
      change (2 ^ (prec - 1)) with 4503599627370496.
      change (2 ^ 1) with 2. nia. }
    destruct D; try lia. exact Hsign.
  - assert (HD : 0 < D).
    { subst D ez. rewrite Z.min_r, Z.sub_diag, Z.pow_0_r by lia.
      assert (HP : 2 ^ 1 <= 2 ^ (ex - ey)) by (apply Z.pow_le_mono_r; lia).
      specialize (Hnx ltac:(lia)). revert Hmy Hnx HP.
      generalize (2 ^ (ex - ey)). intros P.
      change (2 ^ prec) with 9007199254740992.
      change (2 ^ (prec - 1)) with 4503599627370496.
      change (2 ^ 1) with 2. nia. }
    destruct D; try lia. exact Hsign.
Qed.

Lemma SFsub_abs_sign (x y : spec_float) :
  valid_binary x = true -> valid_binary y = true ->
  SFltb (S754_zero false) (SF64sub (SFabs y) (SFabs x))
  = SFltb (SFabs x) (SFabs y).
Proof.
  destruct x as [sx|sx| |sx mx ex], y as [sy|sy| |sy my ey]; intros Hx Hy;
    try reflexivity.
  cbn [SFabs valid_binary] in *.
  pose proof (SFsub_finite_sign my mx ey ex Hy Hx) as H. cbv zeta in H.
  unfold SFltb at 2. revert H. cbn [SFcompare].
  rewrite !Pos.compare_cont_spec. unfold Pos.switch_Eq.
  rewrite (Z.compare_antisym ex ey), (Pos.compare_antisym mx my).
  destruct (ex ?= ey); cbn [CompOpp]; try destruct (mx ?= my)%positive;
    cbn [CompOpp]; intros H;
    try (rewrite H; reflexivity);
    destruct (SF64sub _ _) as [?|[]| |[] ? ?]; simpl in H;
    try contradiction; try discriminate; reflexivity.
Qed.

(** The comparator's difference is positive exactly when the second
    magnitude exceeds the first. *)
Lemma abs_sub_pos (a b : float) :
  (0 <? abs b - abs a)%float = (abs a <? abs b)%float.
Proof.
  rewrite !FloatAxioms.ltb_spec, FloatAxioms.sub_spec, !FloatAxioms.abs_spec.
  change (Prim2SF 0) with (S754_zero false).
  apply SFsub_abs_sign; apply Prim2SF_valid.
Qed.

Ltac cmp_cases :=
  repeat match goal with
  | |- context [Z.compare ?a ?b] => destruct (Z.compare_spec a b)
  | |- context [Pos.compare ?a ?b] => destruct (Pos.compare_spec a b)
  end.

(** Comparison of two numbers is the lexicographic comparison of their
    keys, and undefined as soon as one of them is [NaN]. *)
Lemma SFcompare_key (x y : spec_float) :
  match sf_key x, sf_key y with
  | Some a, Some b =>
      match SFcompare x y with
      | Some Lt => key_lt a b
      | Some Eq => a = b
      | Some Gt => key_lt b a
      | None => False
      end
  | _, _ => SFcompare x y = None
  end.
Proof.
  destruct x as [[]|[]| |[] mx ex], y as [[]|[]| |[] my ey]; unfold key_lt;
    cbn [sf_key SFcompare]; try reflexivity; try lia;
    rewrite ?Pos.compare_cont_spec; unfold Pos.switch_Eq;
    cmp_cases; cbn [CompOpp]; try lia; subst; reflexivity.
Qed.

Lemma float_compare_key (x y : float) :
  match fkey x, fkey y with
  | Some a, Some b =>
      ((x <? y)%float = true <-> key_lt a b) /\
      ((x =? y)%float = true <-> a = b) /\
      ((x <=? y)%float = true <-> key_lt a b \/ a = b)
  | _, _ =>
      (x <? y)%float = false /\ (x =? y)%float = false /\
      (x <=? y)%float = false
  end.
Proof.
  rewrite FloatAxioms.ltb_spec, FloatAxioms.eqb_spec, FloatAxioms.leb_spec.
  unfold fkey, SFltb, SFeqb, SFleb.
  pose proof (SFcompare_key (Prim2SF x) (Prim2SF y)) as H.
  destruct (sf_key (Prim2SF x)) as [[[a1 a2] a3]|],
           (sf_key (Prim2SF y)) as [[[b1 b2] b3]|];
    try (rewrite H; auto).
  destruct (SFcompare (Prim2SF x) (Prim2SF y)) as [[]|]; try contradiction;
    unfold key_lt in *; repeat split; intros H'; try discriminate;
    try reflexivity; auto; exfalso;
    repeat match goal with
    | H0 : _ \/ (_, _, _) = (_, _, _) |- _ => destruct H0 as [H0|H0]
    | H0 : (_, _, _) = (_, _, _) |- _ => inversion H0; clear H0; subst
    end; lia.
Qed.

Ltac key_facts x y :=
  let H := fresh "Hk" in
  pose proof (float_compare_key x y) as H;
  unfold key_lt in H.

Ltac key_destruct :=
  repeat match goal with
  | H : context [fkey ?x] |- _ =>
      let a1 := fresh "a" in let a2 := fresh "a" in let a3 := fresh "a" in
      destruct (fkey x) as [[[a1 a2] a3]|]
  end.

Ltac key_solve :=
  repeat match goal with
  | H : _ /\ _ |- _ => destruct H
  end;
  repeat match goal with
  | H : ?b = true <-> _, H' : ?b = true |- _ => apply H in H'
  | H : ?b = false, H' : ?b = true |- _ => rewrite H in H'; discriminate
  end.

Lemma is_nan_key (x : float) : is_nan x = false <-> fkey x <> None.
Proof.
  unfold is_nan. key_facts x x. destruct (fkey x) as [a|].
  - destruct Hk as (_ & He & _). split; [discriminate|]. intros _.
    apply negb_false_iff, He. reflexivity.
  - destruct Hk as (_ & -> & _). split; [discriminate|congruence].
Qed.

Lemma ltb_leb (x y : float) : (x <? y)%float = true -> (x <=? y)%float = true.
Proof.
  intros Hlt. key_facts x y. key_destruct; key_solve.
  apply H1. left. assumption.
Qed.

Lemma leb_trans (x y z : float) :
  (x <=? y)%float = true -> (y <=? z)%float = true -> (x <=? z)%float = true.
Proof.
  intros Hxy Hyz. key_facts x y. key_facts y z. key_facts x z.
  key_destruct; key_solve.
  match goal with H : _ <-> _ |- (x <=? z)%float = true => apply H end.
  repeat match goal with
  | H : _ \/ (_, _, _) = (_, _, _) |- _ => destruct H as [H|H]
  | H : (_, _, _) = (_, _, _) |- _ => inversion H; clear H; subst
  end; try (left; lia); right; reflexivity.
Qed.

Lemma leb_not_nan (t x : float) : (t <=? x)%float = true -> is_nan x = false.
Proof.
  intros Hle. apply is_nan_key. key_facts t x.
  destruct (fkey t), (fkey x); try discriminate; key_solve.
Qed.

Lemma ltb_false_leb (x y : float) :
  is_nan x = false -> is_nan y = false ->
  (x <? y)%float = false -> (y <=? x)%float = true.
Proof.
  intros Hx Hy Hlt. apply is_nan_key in Hx, Hy.
  key_facts x y. key_facts y x.
  destruct (fkey x) as [[[a1 a2] a3]|], (fkey y) as [[[b1 b2] b3]|];
    try congruence.
  destruct Hk as (Hxy & _ & _), Hk0 as (_ & _ & Hyx). apply Hyx.
  destruct (decide ((a1, a2, a3) = (b1, b2, b3))) as [->|Hne]; [right; reflexivity|].
  left. assert (~ (b1, b2, b3) = (a1, a2, a3)) by congruence.
  assert (Hn : ~ (a1 < b1 \/ a1 = b1 /\ (a2 < b2 \/ a2 = b2 /\ a3 < b3))).
  { intros Hc. apply Hxy in Hc. congruence. }
  destruct (Z.eq_dec a1 b1), (Z.eq_dec a2 b2), (Z.eq_dec a3 b3);
    subst; try congruence; lia.
Qed.

Lemma ltb_eqb_absurd (x y v : float) :
  (x <? y)%float = true -> (x =? v)%float = true -> (y =? v)%float = true ->
  False.
Proof.
  intros Hlt Hx Hy. key_facts x y. key_facts x v. key_facts y v.
  key_destruct; key_solve.
  repeat match goal with
  | H : (_, _, _) = (_, _, _) |- _ => inversion H; clear H; subst
  end. lia.
Qed.

Lemma leb_antisym (x y : float) :
  (x <=? y)%float = true -> (y <=? x)%float = true -> (x =? y)%float = true.
Proof.
  intros Hxy Hyx. key_facts x y. key_facts y x.
  key_destruct; key_solve.
  match goal with H : _ <-> _ |- (x =? y)%float = true => apply H end.
  repeat match goal with
  | H : _ \/ (_, _, _) = (_, _, _) |- _ => destruct H as [H|H]
  | H : (_, _, _) = (_, _, _) |- _ => inversion H; clear H; subst
  end; try reflexivity; exfalso; lia.
Qed.

Lemma leb_refl (x : float) : is_nan x = false -> (x <=? x)%float = true.
Proof.
  intros Hx. apply ltb_false_leb; try assumption.
  key_facts x x. destruct (fkey x) as [[[a1 a2] a3]|].
  - destruct Hk as (Hlt & _). destruct (x <? x)%float; [|reflexivity].
    exfalso. destruct Hlt as [Hlt _]. specialize (Hlt eq_refl). lia.
  - apply Hk.
Qed.

End Binary64.

(** ** The signal list *)

Section SortGeneric.
Context {A : Type} (cmp : A -> A -> float).

Lemma sort_insert_perm (x : A) (l : list A) :
  Permutation (sort_insert cmp x l) (x :: l).
Proof.
  induction l as [|y l IH]; simpl; [reflexivity|].
  destruct (0 <? cmp x y)%float; [|reflexivity].
  rewrite IH. apply perm_swap.
Qed.

Lemma js_sort_perm (l : list A) : Permutation (js_sort cmp l) l.
Proof.
  induction l as [|x l IH]; simpl; [reflexivity|].
  fold (js_sort cmp l). rewrite sort_insert_perm. now constructor.
Qed.
End SortGeneric.

Lemma by_magnitude_out_of_order (a b : NormalizedPoint) :
  (0 <? by_magnitude a b)%float = (magnitude a <? magnitude b)%float.
Proof. apply abs_sub_pos. Qed.

Lemma is_signal_not_nan (threshold : float) (p : NormalizedPoint) :
  is_signal threshold p = true -> is_nan (magnitude p) = false.
Proof. apply leb_not_nan. Qed.

Lemma sort_insert_descending (x : NormalizedPoint) (l : list NormalizedPoint) :
  is_nan (magnitude x) = false ->
  Forall (fun p => is_nan (magnitude p) = false) l ->
  StronglySorted descending l ->
  StronglySorted descending (sort_insert by_magnitude x l).
Proof.
  intros Hx Hl Hs. induction Hs as [|y l Hs IH Hy]; simpl.
  - repeat constructor.
  - apply Forall_cons in Hl as [Hny Hl].
    rewrite by_magnitude_out_of_order.
    destruct (magnitude x <? magnitude y)%float eqn:Hlt.
    + constructor; [auto|].
      rewrite (sort_insert_perm by_magnitude x l). constructor; [|exact Hy].
      apply ltb_leb, Hlt.
    + assert (Hyx : descending x y) by (apply ltb_false_leb; assumption).
      constructor; [constructor; assumption|].
      constructor; [exact Hyx|].
      eapply Forall_impl; [exact Hy|]. intros r Hr.
      unfold descending in *. eapply leb_trans; eassumption.
Qed.

Lemma js_sort_descending (l : list NormalizedPoint) :
  Forall (fun p => is_nan (magnitude p) = false) l ->
  StronglySorted descending (js_sort by_magnitude l).
Proof.
  induction 1 as [|x l Hx Hl IH]; simpl; [constructor|].
  apply sort_insert_descending; auto.
  fold (js_sort by_magnitude l). now rewrite js_sort_perm.
Qed.

Lemma sort_insert_tied (v : float) (x : NormalizedPoint) (l : list NormalizedPoint) :
  List.filter (tied_at v) (sort_insert by_magnitude x l) =
  List.filter (tied_at v) (x :: l).
Proof.
  induction l as [|y l IH]; [reflexivity|].
  cbn [sort_insert]. rewrite by_magnitude_out_of_order.
  destruct (magnitude x <? magnitude y)%float eqn:Hlt; [|reflexivity].
  cbn [List.filter] in *. rewrite IH.
  destruct (tied_at v x) eqn:Hx, (tied_at v y) eqn:Hy; try reflexivity.
  exfalso. eapply ltb_eqb_absurd; eassumption.
Qed.

Lemma js_sort_tied (v : float) (l : list NormalizedPoint) :
  List.filter (tied_at v) (js_sort by_magnitude l) = List.filter (tied_at v) l.
Proof.
  induction l as [|x l IH]; [reflexivity|].
  cbn [js_sort foldr]. fold (js_sort by_magnitude l).
  rewrite sort_insert_tied. cbn [List.filter]. now rewrite IH.
Qed.

Lemma tied_at_self (p : NormalizedPoint) :
  is_nan (magnitude p) = false -> tied_at (magnitude p) p = true.
Proof.
  intros Hp. unfold tied_at. apply leb_antisym; now apply leb_refl.
Qed.

Lemma descending_head_max (h : NormalizedPoint) (t : list NormalizedPoint)
    (p : NormalizedPoint) :
  is_nan (magnitude h) = false ->
  StronglySorted descending (h :: t) -> In p (h :: t) -> descending h p.
Proof.
  intros Hh Hs [<-|Hp].
  - now apply leb_refl.
  - apply StronglySorted_inv in Hs as [_ Hall].
    rewrite Forall_forall in Hall. apply Hall. now apply list_elem_of_In.
Qed.

(** A descending arrangement that keeps tied points in a given order is
    unique: whatever stable algorithm an engine sorts with, the signal list
    is the one computed here. *)
Lemma descending_stable_unique (l1 l2 : list NormalizedPoint) :
  Forall (fun p => is_nan (magnitude p) = false) l1 ->
  Forall (fun p => is_nan (magnitude p) = false) l2 ->
  StronglySorted descending l1 ->
  StronglySorted descending l2 ->
  (forall v, List.filter (tied_at v) l1 = List.filter (tied_at v) l2) ->
  l1 = l2.
Proof.
  revert l2. induction l1 as [|h1 t1 IH]; intros [|h2 t2] Hn1 Hn2 Hs1 Hs2 Htied.
  - reflexivity.
  - apply Forall_cons in Hn2 as [Hh2 _]. specialize (Htied (magnitude h2)).
    cbn [List.filter] in Htied. now rewrite tied_at_self in Htied.
  - apply Forall_cons in Hn1 as [Hh1 _]. specialize (Htied (magnitude h1)).
    cbn [List.filter] in Htied. now rewrite tied_at_self in Htied.
  - pose proof Hn1 as Hn1'. pose proof Hn2 as Hn2'.
    apply Forall_cons in Hn1' as [Hh1 Ht1], Hn2' as [Hh2 Ht2].
    assert (H21 : descending h1 h2).
    { apply (descending_head_max h1 t1); auto.
      apply (proj1 (filter_In (tied_at (magnitude h2)) h2 (h1 :: t1))).
      rewrite Htied. apply filter_In. split; [now left|now apply tied_at_self]. }
    assert (H12 : descending h2 h1).
    { apply (descending_head_max h2 t2); auto.
      apply (proj1 (filter_In (tied_at (magnitude h1)) h1 (h2 :: t2))).
      rewrite <- Htied. apply filter_In. split; [now left|now apply tied_at_self]. }
    assert (Hsame : tied_at (magnitude h1) h2 = true)
      by (apply leb_antisym; assumption).
    pose proof (Htied (magnitude h1)) as Hhead. cbn [List.filter] in Hhead.
    rewrite tied_at_self, Hsame in Hhead by assumption.
    injection Hhead as -> _. f_equal.
    apply IH; auto.
    + now apply StronglySorted_inv in Hs1 as [? _].
    + now apply StronglySorted_inv in Hs2 as [? _].
    + intros v. specialize (Htied v). cbn [List.filter] in Htied.
      destruct (tied_at v h2); [now injection Htied|exact Htied].
Qed.

(** C7.  The signal list holds exactly the points with
    [abs(z) >= threshold], each as often as the input does; it is sorted
    descending by [abs(z)]; and the points tied at a magnitude follow one
    another as they do in the input. *)
Theorem listSignals_sorted_stable (filteredData : list NormalizedPoint)
    (threshold : float) :
  Permutation (listSignals filteredData threshold)
              (List.filter (is_signal threshold) filteredData) /\
  StronglySorted descending (listSignals filteredData threshold) /\
  forall v,
    List.filter (tied_at v) (listSignals filteredData threshold) =
    List.filter (tied_at v) (List.filter (is_signal threshold) filteredData).
Proof.
  unfold listSignals. repeat split.
  - apply js_sort_perm.
  - apply js_sort_descending, Forall_forall. intros p Hp.
    apply list_elem_of_In, filter_In in Hp as [_ Hp].
    now apply is_signal_not_nan in Hp.
  - intros v. apply js_sort_tied.
Qed.

(** ** The range filter *)

Lemma str_ge_leb (a b : string) : str_ge a b = String.leb b a.
Proof.
  unfold str_ge, String.ltb, String.leb. rewrite (String.compare_antisym b a).
  destruct (String.compare a b); reflexivity.
Qed.

Lemma str_le_leb (a b : string) : str_le a b = String.leb a b.
Proof.
  unfold str_le, String.ltb, String.leb. rewrite (String.compare_antisym a b).
  destruct (String.compare b a); reflexivity.
Qed.

Lemma filter_twice {A} (f : A -> bool) (l : list A) :
  List.filter f (List.filter f l) = List.filter f l.
Proof.
  induction l as [|x l IH]; simpl; [reflexivity|].
  destruct (f x) eqn:Hx; simpl; rewrite ?Hx, IH; reflexivity.
Qed.

(** C8.  Filtering by a date range is idempotent.  With both bounds given
    the filter keeps, in their order, exactly the points dated within the
    bounds, both inclusive; with a bound absent (the empty string) it
    returns its input. *)
Theorem filterRange_idempotent (allData : list NormalizedPoint)
    (startDate endDate : string) :
  filterRange (filterRange allData startDate endDate) startDate endDate
    = filterRange allData startDate endDate /\
  filterRange allData startDate endDate =
    (if String.eqb startDate "" || String.eqb endDate "" then allData
     else List.filter (in_range startDate endDate) allData) /\
  filterRange allData "" endDate = allData /\
  filterRange allData startDate "" = allData.
Proof.
  unfold filterRange, JS.str_falsy. repeat split.
  - destruct (_ || _); [reflexivity|]. apply filter_twice.
  - destruct (_ || _); [reflexivity|]. apply filter_ext. intros p.
    unfold in_range. now rewrite str_ge_leb, str_le_leb.
  - now rewrite orb_true_r.
Qed.

(** ** The concrete scenarios *)

Lemma scenario_returns_computed :
  computeReturns scenario_prices "daily" = Some scenario_returns.
Proof. vm_compute. reflexivity. Qed.

(** The specification's figures for the scenario, mean -0.0133 and std
    0.0756, are not the ones the full-sample normalizer computes. *)
Lemma scenario_stats_not_as_stated :
  reads_as (mean (computeStatsFullSample scenario_returns)) (-133 # 10000) = false /\
  reads_as (std (computeStatsFullSample scenario_returns)) (756 # 10000) = false.
Proof. split; vm_compute; reflexivity. Qed.

(** C5, amended.  On the prices 100, 102, 101, 105, 90 the daily returns
    are 0.02, -0.0098, 0.0396 and -0.1429 to four decimal places; their
    full-sample mean is -0.0233 and their std 0.0823, the std being the
    square root of the summed squared deviations over n - 1 = 3. *)
Theorem scenario_returns_and_stats :
  exists r1 r2 r3 r4,
    computeReturns scenario_prices "daily" = Some [r1; r2; r3; r4] /\
    reads_as (r_ret r1) (200 # 10000) = true /\
    reads_as (r_ret r2) (-98 # 10000) = true /\
    reads_as (r_ret r3) (396 # 10000) = true /\
    reads_as (r_ret r4) (-1429 # 10000) = true /\
    let res := computeStatsFullSample [r1; r2; r3; r4] in
    reads_as (mean res) (-233 # 10000) = true /\
    reads_as (std res) (823 # 10000) = true /\
    std res =
      PrimFloat.sqrt
        (JS.sum_sq_dev (mean res) (map r_ret [r1; r2; r3; r4]) / 3)%float.
Proof.
  do 4 eexists. split; [apply scenario_returns_computed|].
  repeat split; vm_compute; reflexivity.
Qed.

(** C4 at a series of identical returns.  The three daily returns of the
    ten-percent series are one and the same number, yet the mean of the
    three is rounded off it, the std comes out positive and every z-score
    is -0.8165 instead of 0. *)
Theorem fullSample_identical_returns_nonzero :
  computeReturns steady_growth_prices "daily" = Some steady_growth_returns /\
  Forall (fun r => r_ret r = tenth) steady_growth_returns /\
  let res := computeStatsFullSample steady_growth_returns in
  (mean res =? tenth)%float = false /\
  (std res =? 0)%float = false /\
  Forall (fun p => reads_as (z p) (-8165 # 10000) = true) (data res).
Proof.
  split; [vm_compute; reflexivity|].
  split; [repeat constructor|].
  repeat split; try (vm_compute; reflexivity).
  cbv zeta. rewrite computeStatsFullSample_data.
  repeat constructor; vm_compute; reflexivity.
Qed.

(** ** Binary64: dividing by one *)

Section DivideByOne.
Local Open Scope Z_scope.

Lemma div_eucl_exact (m : positive) (k : Z) :
  0 < k -> Z.div_eucl (Z.pos m * k) k = (Z.pos m, 0).
Proof.
  intros Hk. pose proof (Z.div_eucl_eq (Z.pos m * k) k ltac:(lia)) as Heq.
  pose proof (Z.mod_pos_bound (Z.pos m * k) k Hk) as Hb.
  unfold Z.modulo in Hb.
  destruct (Z.div_eucl (Z.pos m * k) k) as [q r].
  assert (q = Z.pos m) by nia. subst q. f_equal. lia.
Qed.

Lemma canonical_shr_fexp (m : positive) (e : Z) :
  canonical_mantissa prec emax m e = true ->
  shr_fexp prec emax (Z.pos m) e loc_Exact
  = ({| shr_m := Z.pos m; shr_r := false; shr_s := false |}, e).
Proof.
  unfold canonical_mantissa, shr_fexp. intros H. apply Z.eqb_eq in H.
  cbn [Zdigits2]. rewrite H, Z.sub_diag. reflexivity.
Qed.

Lemma binary_round_aux_canonical (s : bool) (m : positive) (e : Z) :
  bounded prec emax m e = true ->
  binary_round_aux prec emax s (Z.pos m) e loc_Exact = S754_finite s m e.
Proof.
  unfold bounded. intros H. apply andb_true_iff in H as [Hc He].
  unfold binary_round_aux. rewrite (canonical_shr_fexp m e Hc).
  cbn [shr_m loc_of_shr_record round_nearest_even].
  rewrite (canonical_shr_fexp m e Hc). cbn [shr_m]. now rewrite He.
Qed.

Lemma SFdiv_core_one (m : positive) (e : Z) :
  canonical_mantissa prec emax m e = true ->
  SFdiv_core_binary prec emax (Z.pos m) e 4503599627370496 (-52) =
  if e =? -1074 then (Z.pos m, e, loc_Exact) else (Z.pos m~0, e - 1, loc_Exact).
Proof.
  intros Hc. unfold canonical_mantissa, fexp in Hc. apply Z.eqb_eq in Hc.
  pose proof (digits2_pos_bounds m) as Hd.
  unfold SFdiv_core_binary. cbn [Zdigits2].
  change (Z.pos (digits2_pos 4503599627370496)) with 53.
  set (d := Z.pos (digits2_pos m)) in *.
  unfold fexp, emin, prec, emax in *.
  destruct (Z.eqb_spec e (-1074)) as [->|Hne].
  - replace (Z.min (Z.max (d + -1074 - (53 + -52) - 53) (3 - 1024 - 53)) (-1074 - -52))
      with (-1074) by lia.
    change (-1074 - -52 - -1074) with 52.
    rewrite Z.shiftl_mul_pow2 by lia.
    rewrite div_eucl_exact by lia. reflexivity.
  - assert (Hd53 : d = 53) by lia.
    replace (Z.min (Z.max (d + e - (53 + -52) - 53) (3 - 1024 - 53)) (e - -52))
      with (e - 1) by lia.
    replace (e - -52 - (e - 1)) with 53 by lia.
    rewrite Z.shiftl_mul_pow2 by lia.
    replace (Z.pos m * 2 ^ 53) with (Z.pos (m~0) * 4503599627370496) by lia.
    rewrite div_eucl_exact by lia. reflexivity.
Qed.

(** Division by one is exact. *)
Lemma SFdiv_one (s : bool) (m : positive) (e : Z) :
  bounded prec emax m e = true ->
  SF64div (S754_finite s m e) SFone64 = S754_finite s m e.
Proof.
  intros Hb. pose proof Hb as Hb'. unfold bounded in Hb'.
  apply andb_true_iff in Hb' as [Hc He].
  unfold SF64div, SFone64, SFdiv. rewrite (SFdiv_core_one m e Hc), xorb_false_r.
  destruct (Z.eqb_spec e (-1074)) as [->|Hne].
  - now apply binary_round_aux_canonical.
  - pose proof Hc as Hc'. unfold canonical_mantissa, fexp in Hc'.
    apply Z.eqb_eq in Hc'.
    unfold binary_round_aux, shr_fexp. cbn [Zdigits2 digits2_pos].
    rewrite Pos2Z.inj_succ.
    set (d := Z.pos (digits2_pos m)) in *.
    replace (fexp prec emax (Z.succ d + (e - 1)) - (e - 1)) with 1
      by (unfold fexp, emin, prec, emax in *; lia).
    cbn [shr shr_record_of_loc SpecFloat.iter_pos shr_1 orb shr_m loc_of_shr_record
         round_nearest_even Zdigits2]. fold d.
    replace (e - 1 + 1) with e by lia.
    replace (fexp prec emax (d + e) - e) with 0
      by (unfold fexp, emin, prec, emax in *; lia).
    cbn [shr shr_m]. now rewrite He.
Qed.

End DivideByOne.

(** ** Binary64: exact zeros *)

Lemma is_finite_cases (x : float) :
  is_finite x = true ->
  (exists s, Prim2SF x = S754_zero s) \/
  (exists s m e, Prim2SF x = S754_finite s m e).
Proof.
  unfold is_finite, is_nan, is_infinity.
  rewrite !FloatAxioms.eqb_spec, FloatAxioms.abs_spec.
  change (Prim2SF infinity) with (S754_infinity false).
  destruct (Prim2SF x) as [s|s| |s m e]; simpl; try discriminate; eauto.
  destruct s; discriminate.
Qed.

Lemma SFsub_diag_finite (s : bool) (m : positive) (e : Z) :
  SF64sub (S754_finite s m e) (S754_finite s m e) = S754_zero false.
Proof.
  unfold SF64sub, SFsub. cbv zeta. now rewrite Z.sub_diag.
Qed.

(** A return that equals the mean is at squared distance [+0] from it. *)
Lemma square_dev_zero (x m : float) :
  is_finite x = true -> (m =? x)%float = true -> JS.square (x - m) = 0%float.
Proof.
  intros Hfin Heq. apply Prim2SF_inj. unfold JS.square.
  rewrite FloatAxioms.mul_spec, FloatAxioms.sub_spec.
  rewrite FloatAxioms.eqb_spec in Heq. unfold SFeqb in Heq.
  change (Prim2SF 0) with (S754_zero false).
  destruct (is_finite_cases x Hfin) as [[s Hx]|(s & mx & ex & Hx)]; rewrite Hx in *.
  - destruct (Prim2SF m) as [[]|[]| |[] mm em]; simpl in Heq; try discriminate;
      destruct s; reflexivity.
  - destruct (Prim2SF m) as [sm|sm| |sm mm em]; simpl in Heq;
      try (destruct sm, s; discriminate); try discriminate.
    assert (Hsame : sm = s /\ em = ex /\ mm = mx).
    { destruct sm, s; try discriminate;
        destruct (Z.compare_spec em ex); try discriminate;
        rewrite Pos.compare_cont_spec in Heq; unfold Pos.switch_Eq in Heq;
        destruct (Pos.compare_spec mm mx); try discriminate; auto. }
    destruct Hsame as (-> & -> & ->).
    rewrite SFsub_diag_finite. reflexivity.
Qed.

Lemma sum_sq_dev_zero (m : float) (vals : list float) :
  Forall (fun v => JS.square (v - m) = 0%float) vals ->
  JS.sum_sq_dev m vals = 0%float.
Proof.
  unfold JS.sum_sq_dev. induction 1 as [|v vals Hv _ IH]; simpl; [reflexivity|].
  rewrite Hv. exact IH.
Qed.

Lemma truthy_cases (a : float) :
  JS.truthy a = true ->
  (exists s, Prim2SF a = S754_infinity s) \/
  (exists s m e, Prim2SF a = S754_finite s m e).
Proof.
  unfold JS.truthy, is_nan. rewrite !FloatAxioms.eqb_spec.
  change (Prim2SF 0) with (S754_zero false).
  destruct (Prim2SF a) as [s|s| |s m e]; simpl; try discriminate; eauto.
Qed.

(** A zero sum divided by the divisor [n - 1 || 1] has a zero root. *)
Lemma sqrt_zero_over_divisor (a : float) :
  (PrimFloat.sqrt (0 / JS.or a 1) =? 0)%float = true.
Proof.
  unfold JS.or. destruct (JS.truthy a) eqn:Ha; [|reflexivity].
  rewrite FloatAxioms.eqb_spec, FloatAxioms.sqrt_spec, FloatAxioms.div_spec.
  change (Prim2SF 0) with (S754_zero false).
  destruct (truthy_cases a Ha) as [[s ->]|(s & m & e & ->)]; destruct s; reflexivity.
Qed.

Lemma SFeqb_refl_finite (s : bool) (m : positive) (e : Z) :
  SFeqb (S754_finite s m e) (S754_finite s m e) = true.
Proof.
  unfold SFeqb. cbn [SFcompare].
  rewrite Z.compare_refl, Pos.compare_cont_spec, Pos.compare_refl.
  destruct s; reflexivity.
Qed.

(** The mean of a single finite return is that return. *)
Lemma single_mean_exact (x : float) :
  is_finite x = true ->
  (JS.sum [x] / JS.of_nat 1 =? x)%float = true.
Proof.
  intros Hfin. unfold JS.sum. cbn [foldl].
  rewrite FloatAxioms.eqb_spec, FloatAxioms.div_spec, FloatAxioms.add_spec.
  change (Prim2SF (JS.of_nat 1)) with SFone64.
  change (Prim2SF 0) with (S754_zero false).
  pose proof (Prim2SF_valid x) as Hv.
  destruct (is_finite_cases x Hfin) as [[s Hx]|(s & m & e & Hx)]; rewrite Hx in *.
  - destruct s; reflexivity.
  - cbn [SF64add SFadd]. rewrite (SFdiv_one s m e Hv). apply SFeqb_refl_finite.
Qed.

Lemma zero_std_of_exact_mean (returns : list PeriodReturn) (x : float) :
  Forall (fun r => r_ret r = x) returns ->
  is_finite x = true ->
  (mean (computeStatsFullSample returns) =? x)%float = true ->
  (std (computeStatsFullSample returns) =? 0)%float = true.
Proof.
  intros Hall Hfin Hmean.
  destruct returns as [|r returns]; [reflexivity|].
  revert Hmean. unfold computeStatsFullSample. cbn [length Nat.eqb mean std].
  set (m := (JS.sum _ / _)%float). intros Hmean.
  rewrite sum_sq_dev_zero; [apply sqrt_zero_over_divisor|].
  apply Forall_fmap. eapply Forall_impl; [exact Hall|].
  intros r0 Hr0. simpl. rewrite Hr0. now apply square_dev_zero.
Qed.

(** C4, amended.  When the returns all equal one finite number and the
    mean the normalizer computes is that number (under the language's
    equality), the std is zero and every z-score is [0]; the mean of a
    single-element series is always its one return.  The normalizer maps
    and reduces its input without indexing it, so it returns on every
    input. *)
Theorem fullSample_identical_exact_mean (returns : list PeriodReturn) (x : float) :
  Forall (fun r => r_ret r = x) returns ->
  is_finite x = true ->
  let res := computeStatsFullSample returns in
  ((mean res =? x)%float = true ->
   (std res =? 0)%float = true /\ Forall (fun p => z p = 0%float) (data res)) /\
  (length returns = 1 -> (mean res =? x)%float = true).
Proof.
  intros Hall Hfin res. split.
  - intros Hmean.
    pose proof (zero_std_of_exact_mean returns x Hall Hfin Hmean) as Hstd.
    split; [exact Hstd|]. subst res.
    rewrite computeStatsFullSample_data. apply Forall_fmap, Forall_forall.
    intros r _. simpl. now rewrite Hstd.
  - destruct returns as [|r [|r' returns]]; try discriminate. intros _.
    apply Forall_cons in Hall as [Hr _]. subst res.
    unfold computeStatsFullSample. cbn [length Nat.eqb mean map].
    rewrite Hr. now apply single_mean_exact.
Qed.

Lemma fullSample_identical_exact_mean_witness :
  let res := computeStatsFullSample [ {| r_ret := tenth; r_date := "2024-01-02" |} ] in
  ((mean res =? tenth)%float = true ->
   (std res =? 0)%float = true /\ Forall (fun p => z p = 0%float) (data res)) /\
  (length [ {| r_ret := tenth; r_date := "2024-01-02" |} ] = 1 ->
   (mean res =? tenth)%float = true).
Proof.
  apply (fullSample_identical_exact_mean
           [ {| r_ret := tenth; r_date := "2024-01-02" |} ] tenth).
  - repeat constructor.
  - vm_compute. reflexivity.
Defined.


(** * Further properties *)

(** ** Return calculator: what each return is *)

(** X1.  [computeReturns] returns on every price series, sorted or not and
    empty or not.  Its [k]-th return is the relative change from the price
    at index [k * step] to the price at index [(k + 1) * step], dated as
    the later of the two: the periods tile the series, each one starting
    where the one before it ends. *)
Theorem computeReturns_content (prices : list PricePoint) (period : string) :
  exists returns,
    computeReturns prices period = Some returns /\
    length returns = (length prices - 1) / step_of period /\
    forall k, k < length returns ->
      exists prev cur,
        prices !! (k * step_of period) = Some prev /\
        prices !! ((k + 1) * step_of period) = Some cur /\
        returns !! k =
          Some {| r_ret := ((close cur - close prev) / close prev)%float;
                  r_date := p_date cur |}.
Proof.
  pose proof (step_of_pos period) as Hstep.
  destruct (returns_loop_spec prices (step_of period) Hstep
              (length prices) (step_of period) [])
    as (out & Hout & Hcount & Hnth); [nia|].
  exists out. unfold computeReturns. simpl in Hout. rewrite Hout.
  replace (length prices + step_of period - 1 - step_of period)
    with (length prices - 1) in Hcount by lia.
  repeat split; [exact Hcount|].
  intros k Hk. destruct (lookup_lt_is_Some_2 out k Hk) as [r Hr].
  pose proof (Hnth k r Hr) as Hat. unfold return_at in Hat.
  replace (step_of period + k * step_of period)
    with ((k + 1) * step_of period) in Hat by lia.
  destruct (prices !! ((k + 1) * step_of period)) as [cur|]; [|discriminate].
  replace ((k + 1) * step_of period - step_of period)
    with (k * step_of period) in Hat by lia.
  simpl in Hat.
  destruct (prices !! (k * step_of period)) as [prev|]; [|discriminate].
  simpl in Hat. exists prev, cur. repeat split. now rewrite Hr, <- Hat.
Qed.

(** ** Rolling-window normalizer: no point looks ahead *)

Lemma local_stats_app (returns more : list PeriodReturn) (windowSize i : nat) :
  i < length returns ->
  local_stats (returns ++ more) windowSize i = local_stats returns windowSize i.
Proof.
  intros Hi. unfold local_stats, warmup_slice, steady_slice, JS.slice.
  destruct (Nat.ltb_spec i windowSize) as [Hlt|Hge].
  - rewrite !drop_0, take_app_le by lia. reflexivity.
  - rewrite drop_app_le by lia.
    rewrite take_app_le by (rewrite length_drop; lia). reflexivity.
Qed.

(** X2.  Rolling statistics never look ahead: the points computed for a
    series are kept, one for one, when further returns are appended to it.
    A bar once drawn does not change as new prices arrive. *)
Theorem rolling_append_stable (returns more : list PeriodReturn) (windowSize : nat) :
  exists res res',
    computeStatsRolling returns windowSize = Some res /\
    computeStatsRolling (returns ++ more) windowSize = Some res' /\
    take (length returns) (data res') = data res.
Proof.
  destruct (computeStatsRolling_data returns windowSize) as (res & Hres & Hdata).
  destruct (computeStatsRolling_data (returns ++ more) windowSize)
    as (res' & Hres' & Hdata').
  exists res, res'. repeat split; try assumption.
  rewrite Hdata, Hdata'. apply list_eq. intros i.
  destruct (decide (i < length returns)) as [Hi|Hi].
  - rewrite lookup_take_lt, !list_lookup_imap by exact Hi.
    rewrite lookup_app_l by exact Hi.
    destruct (returns !! i); [|reflexivity]. simpl.
    now rewrite local_stats_app.
  - rewrite lookup_take_ge by lia.
    rewrite list_lookup_imap, lookup_ge_None_2 by lia. reflexivity.
Qed.

(** ** Dates: the order of strings *)

Lemma string_compare_refl (s : string) : String.compare s s = Eq.
Proof.
  induction s as [|a s IH]; simpl; [reflexivity|].
  unfold Ascii.compare. now rewrite N.compare_refl.
Qed.

Lemma string_ltb_irrefl (s : string) : String.ltb s s = false.
Proof. unfold String.ltb. now rewrite string_compare_refl. Qed.

Lemma string_ltb_asym (a b : string) :
  String.ltb a b = true -> String.ltb b a = false.
Proof.
  unfold String.ltb. rewrite (String.compare_antisym a b).
  destruct (String.compare b a); simpl; congruence.
Qed.

(** [a < b] and [b <= c] give [a < c]. *)
Lemma string_lt_le_trans (a b c : string) :
  String.ltb a b = true -> String.ltb c b = false -> String.ltb a c = true.
Proof.
  intros Hab Hcb. unfold String.ltb in Hcb.
  destruct (String.compare c b) eqn:E; try discriminate.
  - apply String.compare_eq_iff in E. now subst.
  - apply (date_lt_trans a b c Hab). unfold date_lt, String.ltb.
    rewrite (String.compare_antisym b c), E. reflexivity.
Qed.

(** [a <= b] and [b < c] give [a < c]. *)
Lemma string_le_lt_trans (a b c : string) :
  String.ltb b a = false -> String.ltb b c = true -> String.ltb a c = true.
Proof.
  intros Hba Hbc. unfold String.ltb in Hba.
  destruct (String.compare b a) eqn:E; try discriminate.
  - apply String.compare_eq_iff in E. now subst.
  - refine (date_lt_trans a b c _ Hbc). unfold date_lt, String.ltb.
    rewrite (String.compare_antisym a b), E. reflexivity.
Qed.

(** ** The range filter as an operation on series *)

Lemma filter_all {A} (f : A -> bool) (l : list A) :
  Forall (fun x => f x = true) l -> List.filter f l = l.
Proof.
  induction 1 as [|x l Hx _ IH]; simpl; [reflexivity|]. now rewrite Hx, IH.
Qed.

Lemma filter_sublist {A} (f : A -> bool) (l : list A) :
  sublist (List.filter f l) l.
Proof.
  induction l as [|x l IH]; simpl; [constructor|].
  destruct (f x); now constructor.
Qed.

Lemma filter_commute {A} (f g : A -> bool) (l : list A) :
  List.filter f (List.filter g l) = List.filter g (List.filter f l).
Proof.
  induction l as [|x l IH]; simpl; [reflexivity|].
  destruct (f x) eqn:Hf, (g x) eqn:Hg; simpl; rewrite ?Hf, ?Hg, IH; reflexivity.
Qed.

Lemma filter_narrow {A} (f g : A -> bool) (l : list A) :
  (forall x, g x = true -> f x = true) ->
  List.filter g (List.filter f l) = List.filter g l.
Proof.
  intros Himp. induction l as [|x l IH]; simpl; [reflexivity|].
  destruct (f x) eqn:Hf; simpl.
  - now rewrite IH.
  - destruct (g x) eqn:Hg; [|exact IH].
    apply Himp in Hg. congruence.
Qed.

(** X3.  The range filter only drops points: what it returns is a
    subsequence of its input, so it never reorders, repeats or alters a
    point; and two ranges can be applied in either order. *)
Theorem filterRange_sublist_commute (allData : list NormalizedPoint)
    (s1 e1 s2 e2 : string) :
  sublist (filterRange allData s1 e1) allData /\
  filterRange (filterRange allData s1 e1) s2 e2
    = filterRange (filterRange allData s2 e2) s1 e1.
Proof.
  unfold filterRange. split.
  - destruct (_ || _); [reflexivity|apply filter_sublist].
  - destruct (JS.str_falsy s1 || JS.str_falsy e1),
             (JS.str_falsy s2 || JS.str_falsy e2); try reflexivity.
    apply filter_commute.
Qed.

(** X4.  Narrowing the range loses nothing: filtering to a range and then
    to a range inside it gives what filtering to the inner range alone
    gives.  The inner bounds have to be set, as an unset bound switches the
    filter off. *)
Theorem filterRange_nested (allData : list NormalizedPoint)
    (s1 e1 s2 e2 : string) :
  s2 <> "" -> e2 <> "" ->
  str_le s1 s2 = true -> str_le e2 e1 = true ->
  filterRange (filterRange allData s1 e1) s2 e2 = filterRange allData s2 e2.
Proof.
  intros Hs2 He2 Hs He. unfold filterRange, JS.str_falsy.
  apply String.eqb_neq in Hs2, He2. rewrite Hs2, He2. cbn [orb].
  destruct (_ || _); [reflexivity|].
  apply filter_narrow. intros p Hp.
  apply andb_true_iff in Hp as [Hge Hle]. unfold str_ge, str_le in *.
  apply negb_true_iff in Hge, Hle, Hs, He.
  apply andb_true_iff. split; apply negb_true_iff.
  - destruct (String.ltb (date p) s1) eqn:Hlt; [|reflexivity].
    pose proof (string_lt_le_trans _ _ _ Hlt Hs). congruence.
  - destruct (String.ltb e1 (date p)) eqn:Hlt; [|reflexivity].
    pose proof (string_lt_le_trans _ _ _ Hlt Hle). congruence.
Qed.

Lemma filterRange_nested_witness :
  filterRange
    (filterRange (data (computeStatsFullSample scenario_returns))
       "2024-01-01" "2024-01-05") "2024-01-03" "2024-01-04"
  = filterRange (data (computeStatsFullSample scenario_returns))
      "2024-01-03" "2024-01-04".
Proof.
  apply filterRange_nested; [discriminate | discriminate | reflexivity | reflexivity].
Defined.

(** ** From the loaded prices to the chart *)

Lemma list_last_lookup {A} (l : list A) (d : A) :
  l <> [] -> l !! (length l - 1) = Some (List.last l d).
Proof.
  induction l as [|x l IH]; [congruence|]. intros _.
  destruct l as [|y l]; [reflexivity|].
  change (List.last (x :: y :: l) d) with (List.last (y :: l) d).
  rewrite <- IH by discriminate. simpl. now rewrite Nat.sub_0_r.
Qed.

(** Every date of an ascending series lies between its first and its last
    date. *)
Lemma ascending_within_ends (first : PricePoint) (rest : list PricePoint)
    (p : PricePoint) :
  prices_ascending (first :: rest) ->
  p ∈ first :: rest ->
  String.ltb (p_date p) (p_date first) = false /\
  String.ltb (p_date (List.last (first :: rest) first)) (p_date p) = false.
Proof.
  intros Hasc Hp.
  assert (Hss : StronglySorted (fun a b => date_lt (p_date a) (p_date b))
                  (first :: rest)).
  { apply Sorted_StronglySorted; [|exact Hasc].
    intros x y z0. apply date_lt_trans. }
  apply list_elem_of_lookup_1 in Hp as [j Hj].
  pose proof (lookup_lt_Some _ _ _ Hj) as Hlen.
  pose proof (list_last_lookup (first :: rest) first ltac:(discriminate)) as Hlast.
  split.
  - destruct j as [|j].
    + inversion Hj; subst. apply string_ltb_irrefl.
    + apply string_ltb_asym.
      apply (StronglySorted_lookup _ _ 0 (S j) first p Hss); auto. lia.
  - destruct (decide (j = length (first :: rest) - 1)) as [->|Hne].
    + rewrite Hlast in Hj. inversion Hj; subst. apply string_ltb_irrefl.
    + apply string_ltb_asym.
      apply (StronglySorted_lookup _ _ j (length (first :: rest) - 1) _ _ Hss);
        auto. lia.
Qed.

(** The dates of the returns are dates of the prices. *)
Lemma computeReturns_dates (prices : list PricePoint) (period : string) :
  exists returns,
    computeReturns prices period = Some returns /\
    Forall (fun r => exists p, p ∈ prices /\ r_date r = p_date p) returns.
Proof.
  pose proof (step_of_pos period) as Hstep.
  destruct (returns_loop_spec prices (step_of period) Hstep
              (length prices) (step_of period) [])
    as (out & Hout & _ & Hnth); [nia|].
  exists out. unfold computeReturns. simpl in Hout. split; [exact Hout|].
  apply Forall_forall. intros r Hr.
  apply list_elem_of_lookup_1 in Hr as [k Hk].
  apply Hnth, return_at_date in Hk as (p & Hp & Hd).
  exists p. split; [|exact Hd]. eapply list_elem_of_lookup_2; eauto.
Qed.

(** Whatever the mode, the statistics are computed and their points carry
    dates of the returns. *)
Lemma app_stats_dates (sigmaMode : string) (rollingWindow : nat)
    (returns : list PeriodReturn) :
  exists stats,
    app_stats sigmaMode rollingWindow returns = Some stats /\
    length (data stats) = length returns /\
    Forall (fun d => exists r, r ∈ returns /\ date d = r_date r) (data stats).
Proof.
  unfold app_stats. destruct (String.eqb sigmaMode "rolling").
  - destruct (computeStatsRolling_data returns rollingWindow)
      as (res & Hres & Hdata).
    exists res. split; [exact Hres|]. rewrite Hdata. split; [apply length_imap|].
    apply Forall_imap. intros i r Hr. exists r.
    split; [|reflexivity]. eapply list_elem_of_lookup_2; eauto.
  - eexists. split; [reflexivity|]. rewrite computeStatsFullSample_data.
    split; [apply length_map|].
    apply Forall_fmap, Forall_forall. intros r Hr. exists r. now split.
Qed.

(** X5.  After a ticker has loaded, the whole series is on the chart.  For
    prices ascending by date, the range [loadTicker] sets (first to last
    date) filters nothing out: in either mode and for every period the
    chart receives every computed point, floor((N - 1) / step) of them, and
    the computation does not raise. *)
Theorem default_range_shows_all (prices : list PricePoint)
    (period sigmaMode : string) (rollingWindow : nat) (startDate endDate : string) :
  prices_ascending prices ->
  exists returns stats,
    app_returns (Some prices) period = Some returns /\
    app_stats sigmaMode rollingWindow returns = Some stats /\
    app_filteredData (Some prices) period sigmaMode rollingWindow
      (loadTicker_range prices startDate endDate).1
      (loadTicker_range prices startDate endDate).2 = Some (data stats) /\
    length (data stats) = (length prices - 1) / step_of period.
Proof.
  intros Hasc.
  destruct (computeReturns_dates prices period) as (returns & Hret & Hdates).
  destruct (app_stats_dates sigmaMode rollingWindow returns)
    as (stats & Hstats & Hlen & Hpts).
  exists returns, stats. unfold app_filteredData. cbn [app_returns].
  rewrite Hret. cbn [mbind option_bind]. rewrite Hstats. cbn [mbind option_bind].
  repeat split.
  - f_equal. unfold filterRange. destruct (_ || _); [reflexivity|].
    apply filter_all. eapply Forall_impl; [exact Hpts|].
    intros d (r & Hr & Hd). rewrite Forall_forall in Hdates.
    destruct (Hdates r Hr) as (p & Hp & Hrp).
    destruct prices as [|first rest]; [inversion Hp|].
    destruct (ascending_within_ends first rest p Hasc Hp) as [Hlo Hhi].
    cbn [loadTicker_range fst snd]. unfold str_ge, str_le.
    rewrite Hd, Hrp, Hlo, Hhi. reflexivity.
  - rewrite Hlen.
    pose proof (step_of_pos period) as Hstep.
    destruct (returns_loop_spec prices (step_of period) Hstep
                (length prices) (step_of period) [])
      as (out & Hout & Hcount & _); [nia|].
    unfold computeReturns in Hret. simpl in Hout. rewrite Hout in Hret.
    inversion Hret; subst. rewrite Hcount. f_equal. lia.
Qed.

Lemma default_range_shows_all_witness :
  exists returns stats,
    app_returns (Some scenario_prices) "daily" = Some returns /\
    app_stats "rolling" 2 returns = Some stats /\
    app_filteredData (Some scenario_prices) "daily" "rolling" 2
      (loadTicker_range scenario_prices "" "").1
      (loadTicker_range scenario_prices "" "").2 = Some (data stats) /\
    length (data stats) = (length scenario_prices - 1) / step_of "daily".
Proof.
  apply (default_range_shows_all scenario_prices "daily" "rolling" 2 "" "").
  repeat constructor.
Defined.

(** ** Signals: the counters and the list *)

Lemma leb_ltb_false (x y : float) :
  (y <=? x)%float = true -> (x <? y)%float = false.
Proof.
  intros Hyx. destruct (x <? y)%float eqn:Hlt; [|reflexivity]. exfalso.
  pose proof (ltb_leb x y Hlt) as Hxy.
  pose proof (leb_antisym x y Hxy Hyx) as Heq.
  apply (ltb_eqb_absurd x y y Hlt Heq).
  apply leb_antisym; apply leb_refl; exact (leb_not_nan x y Hxy).
Qed.

Lemma leb_ltb_trans (t a x : float) :
  (t <=? a)%float = true -> (a <? x)%float = true -> (t <=? x)%float = true.
Proof.
  intros Hta Hax. apply (leb_trans t a x Hta). now apply ltb_leb.
Qed.

Lemma filter_length_le {A} (f g : A -> bool) (l : list A) :
  (forall x, f x = true -> g x = true) ->
  length (List.filter f l) <= length (List.filter g l).
Proof.
  intros Himp. induction l as [|x l IH]; simpl; [lia|].
  destruct (f x) eqn:Hf.
  - rewrite (Himp x Hf). simpl. lia.
  - destruct (g x); simpl; lia.
Qed.

Lemma js_sort_sorted_id (l : list NormalizedPoint) :
  StronglySorted descending l -> js_sort by_magnitude l = l.
Proof.
  induction 1 as [|x l Hs IH Hx]; [reflexivity|].
  cbn [js_sort foldr]. fold (js_sort by_magnitude l). rewrite IH.
  destruct l as [|y l]; [reflexivity|]. cbn [sort_insert].
  rewrite by_magnitude_out_of_order.
  apply Forall_cons in Hx as [Hxy _]. now rewrite (leb_ltb_false _ _ Hxy).
Qed.

(** X6.  The header and the signal list agree: the count of signals shown
    in the header is the length of the signal list, it is zero exactly when
    the list is empty (the list is then not rendered), and it never exceeds
    the number of periods shown. *)
Theorem signal_count_matches_list (filteredData : list NormalizedPoint)
    (threshold : float) :
  length (listSignals filteredData threshold)
    = beyondThreshold filteredData threshold /\
  (beyondThreshold filteredData threshold = 0
   <-> listSignals filteredData threshold = []) /\
  beyondThreshold filteredData threshold <= length filteredData.
Proof.
  assert (Hlen : length (listSignals filteredData threshold)
                 = beyondThreshold filteredData threshold).
  { unfold listSignals, beyondThreshold. now rewrite js_sort_perm. }
  repeat split.
  - exact Hlen.
  - intros H0. apply length_zero_iff_nil. now rewrite Hlen.
  - intros Hnil. now rewrite <- Hlen, Hnil.
  - unfold beyondThreshold. apply sublist_length, filter_sublist.
Qed.

(** X7.  The signal list is a fixed point: taking the signals of a signal
    list, at the same threshold, gives the list back, in the same order. *)
Theorem listSignals_idempotent (filteredData : list NormalizedPoint)
    (threshold : float) :
  listSignals (listSignals filteredData threshold) threshold
    = listSignals filteredData threshold.
Proof.
  unfold listSignals.
  set (signals := List.filter (is_signal threshold) filteredData).
  assert (Hall : Forall (fun p => is_signal threshold p = true) signals).
  { apply Forall_forall. intros p Hp.
    now apply list_elem_of_In, filter_In in Hp as [_ Hp]. }
  rewrite filter_all by (now rewrite js_sort_perm).
  apply js_sort_sorted_id, js_sort_descending.
  eapply Forall_impl; [exact Hall|]. intros p. apply is_signal_not_nan.
Qed.

(** X8.  A clipped bar is a signal.  With the threshold at or below the
    scale ceiling of 5 (the slider stops there), every bar drawn clipped is
    among the signals, so there are at most as many clipped bars as
    signals. *)
Theorem clipped_bars_are_signals (filteredData : list NormalizedPoint)
    (threshold : float) :
  (threshold <=? MAX_SIGMA_SCALE)%float = true ->
  (forall d, d ∈ filteredData -> is_clipped d = true -> is_signal threshold d = true) /\
  clippedBars filteredData <= beyondThreshold filteredData threshold.
Proof.
  intros Hthr.
  assert (Himp : forall d, is_clipped d = true -> is_signal threshold d = true).
  { intros d Hd. unfold is_clipped, is_signal in *.
    exact (leb_ltb_trans _ _ _ Hthr Hd). }
  split; [intros d _; apply Himp|].
  unfold clippedBars, beyondThreshold. now apply filter_length_le.
Qed.

Lemma clipped_bars_are_signals_witness :
  (forall d, d ∈ data (computeStatsFullSample scenario_returns) ->
             is_clipped d = true -> is_signal 2 d = true) /\
  clippedBars (data (computeStatsFullSample scenario_returns))
    <= beyondThreshold (data (computeStatsFullSample scenario_returns)) 2.
Proof.
  apply clipped_bars_are_signals. vm_compute. reflexivity.
Defined.

(** X9.  Raising the threshold never adds a signal: a point that is a
    signal at the higher threshold is one at the lower threshold, the
    signal list at the higher threshold is drawn from the list at the lower
    one, and the count does not grow. *)
Theorem signals_antitone (filteredData : list NormalizedPoint)
    (lower higher : float) :
  (lower <=? higher)%float = true ->
  (forall p, In p (listSignals filteredData higher) ->
             In p (listSignals filteredData lower)) /\
  beyondThreshold filteredData higher <= beyondThreshold filteredData lower.
Proof.
  intros Hle.
  assert (Himp : forall d, is_signal higher d = true -> is_signal lower d = true).
  { intros d Hd. unfold is_signal in *. exact (leb_trans _ _ _ Hle Hd). }
  split.
  - intros p Hp. unfold listSignals in *.
    apply list_elem_of_In. rewrite js_sort_perm.
    apply list_elem_of_In in Hp. rewrite js_sort_perm in Hp.
    apply list_elem_of_In, filter_In in Hp as [Hin Hsig].
    apply list_elem_of_In, filter_In. split; [exact Hin|now apply Himp].
  - unfold beyondThreshold. now apply filter_length_le.
Qed.

Lemma signals_antitone_witness :
  (forall p, In p (listSignals (data (computeStatsFullSample scenario_returns)) 2) ->
             In p (listSignals (data (computeStatsFullSample scenario_returns)) 1)) /\
  beyondThreshold (data (computeStatsFullSample scenario_returns)) 2
    <= beyondThreshold (data (computeStatsFullSample scenario_returns)) 1.
Proof.
  apply signals_antitone. vm_compute. reflexivity.
Defined.

(** ** Rolling-window normalizer: the edges of the window *)

(** X10.  The first bar of a rolling chart is flat.  With a window of at
    least one period, the first point is measured against itself alone:
    its local std is [0] and its z-score is [0] whatever its return, and
    for a finite return its local mean is that return. *)
Theorem rolling_first_point_flat (r : PeriodReturn) (rest : list PeriodReturn)
    (windowSize : nat) :
  0 < windowSize ->
  exists res p m,
    computeStatsRolling (r :: rest) windowSize = Some res /\
    data res !! 0 = Some p /\
    z p = 0%float /\
    localStd p = Some 0%float /\
    localMean p = Some m /\
    (is_finite (r_ret r) = true -> (m =? r_ret r)%float = true).
Proof.
  intros Hw.
  destruct (rolling_point_at (r :: rest) windowSize 0 r eq_refl)
    as (res & Hres & Hp).
  rewrite local_stats_warmup in Hp by exact Hw.
  exists res. eexists. eexists. split; [exact Hres|]. split; [exact Hp|].
  cbn. repeat split. apply single_mean_exact.
Qed.

Lemma rolling_first_point_flat_witness :
  exists res p m,
    computeStatsRolling
      ({| r_ret := tenth; r_date := "2024-01-02" |} :: scenario_returns) 2
      = Some res /\
    data res !! 0 = Some p /\
    z p = 0%float /\
    localStd p = Some 0%float /\
    localMean p = Some m /\
    (is_finite tenth = true -> (m =? tenth)%float = true).
Proof.
  apply (rolling_first_point_flat
           {| r_ret := tenth; r_date := "2024-01-02" |} scenario_returns 2).
  lia.
Defined.

Lemma local_stats_window_zero (returns : list PeriodReturn) (i : nat) :
  local_stats returns 0 i = (nan, neg_zero).
Proof.
  unfold local_stats, steady_slice, JS.slice. cbn [Nat.ltb Nat.leb].
  rewrite Nat.sub_0_r, Nat.sub_diag. reflexivity.
Qed.

(** X11.  A window of zero periods silences the chart.  The source then
    slices an empty window at every index: each local mean is [NaN], each
    local std is [-0], which the guard [std === 0] takes for zero, and so
    every z-score is [0]; no exception is raised. *)
Theorem rolling_window_zero (returns : list PeriodReturn) :
  exists res,
    computeStatsRolling returns 0 = Some res /\
    length (data res) = length returns /\
    Forall (fun p => z p = 0%float /\
                     localMean p = Some nan /\ localStd p = Some neg_zero)
           (data res).
Proof.
  destruct (computeStatsRolling_data returns 0) as (res & Hres & Hdata).
  exists res. split; [exact Hres|]. rewrite Hdata. split; [apply length_imap|].
  apply Forall_imap. intros i r _. rewrite local_stats_window_zero.
  repeat split.
Qed.


(** ** Binary64: the sign of a difference and of a quotient *)

Section Binary64Sign.
Local Open Scope Z_scope.

Lemma SFsub_negatives (mx my : positive) (ex ey : Z) :
  SF64sub (S754_finite true mx ex) (S754_finite true my ey)
  = SF64sub (S754_finite false my ey) (S754_finite false mx ex).
Proof.
  unfold SF64sub, SFsub. cbn [cond_Zopp]. rewrite (Z.min_comm ey ex).
  f_equal; lia.
Qed.

Lemma SFcompare_negatives (mx my : positive) (ex ey : Z) :
  SFcompare (S754_finite true mx ex) (S754_finite true my ey)
  = SFcompare (S754_finite false my ey) (S754_finite false mx ex).
Proof.
  cbn [SFcompare]. rewrite !Pos.compare_cont_spec. unfold Pos.switch_Eq.
  rewrite (Z.compare_antisym ex ey), (Pos.compare_antisym mx my).
  destruct (ex ?= ey); cbn [CompOpp]; try reflexivity.
  destruct (mx ?= my)%positive; reflexivity.
Qed.

(** The sign of a difference is the outcome of the comparison. *)
Lemma SFsub_sign (x y : spec_float) :
  valid_binary x = true -> valid_binary y = true ->
  match SFcompare x y with
  | Some Lt => signed true (SF64sub x y)
  | Some Gt => signed false (SF64sub x y)
  | _ => unsigned (SF64sub x y)
  end.
Proof.
  intros Hx Hy.
  destruct x as [[]|[]| |[] mx ex], y as [[]|[]| |[] my ey];
    try (cbn; exact I); try (cbn; reflexivity);
    cbn [valid_binary] in *.
  - rewrite SFsub_negatives, SFcompare_negatives.
    pose proof (SFsub_finite_sign my mx ey ex Hy Hx) as H. cbv zeta in H.
    destruct (SFcompare _ _) as [[]|]; try exact H; try contradiction.
    now rewrite H.
  - apply bounded_inv in Hx as (Hex & _), Hy as (Hey & _).
    unfold SF64sub, SFsub. cbn [cond_Zopp SFcompare].
    set (ez := Z.min ex ey).
    pose proof (binary_normalize_sign
                  (- Z.pos (shl_align mx ex ez).1 - Z.pos (shl_align my ey ez).1)
                  ez ltac:(subst ez; lia)) as H.
    destruct (- Z.pos _ - Z.pos _) eqn:E; try lia. exact H.
  - apply bounded_inv in Hx as (Hex & _), Hy as (Hey & _).
    unfold SF64sub, SFsub. cbn [cond_Zopp SFcompare].
    set (ez := Z.min ex ey).
    pose proof (binary_normalize_sign
                  (Z.pos (shl_align mx ex ez).1 - - Z.pos (shl_align my ey ez).1)
                  ez ltac:(subst ez; lia)) as H.
    destruct (Z.pos _ - - Z.pos _) eqn:E; try lia. exact H.
  - pose proof (SFsub_finite_sign mx my ex ey Hx Hy) as H. cbv zeta in H.
    destruct (SFcompare _ _) as [[]|]; try exact H; try contradiction.
    now rewrite H.
Qed.

Lemma SFcompare_antisym (x y : spec_float) :
  SFcompare y x = option_map CompOpp (SFcompare x y).
Proof.
  destruct x as [[]|[]| |[] mx ex], y as [[]|[]| |[] my ey]; try reflexivity;
    cbn [SFcompare option_map]; rewrite !Pos.compare_cont_spec;
    unfold Pos.switch_Eq;
    rewrite (Z.compare_antisym ex ey), (Pos.compare_antisym mx my);
    destruct (ex ?= ey); cbn [CompOpp]; try reflexivity;
    destruct (mx ?= my)%positive; reflexivity.
Qed.

Lemma SFltb_zero_l (x : spec_float) :
  SFltb (S754_zero false) x = true <-> signed false x.
Proof.
  destruct x as [[]|[]| |[] m e]; cbn; split; intros H;
    try discriminate; try contradiction; reflexivity.
Qed.

Lemma SFltb_zero_r (x : spec_float) :
  SFltb x (S754_zero false) = true <-> signed true x.
Proof.
  destruct x as [[]|[]| |[] m e]; cbn; split; intros H;
    try discriminate; try contradiction; reflexivity.
Qed.

(** A positive difference [x - y] means [y < x], a negative one [x < y]. *)
Lemma sub_sign (x y : float) :
  ((0 <? x - y)%float = true -> (y <? x)%float = true) /\
  ((x - y <? 0)%float = true -> (x <? y)%float = true).
Proof.
  rewrite !FloatAxioms.ltb_spec, FloatAxioms.sub_spec.
  change (Prim2SF 0) with (S754_zero false).
  rewrite SFltb_zero_l, SFltb_zero_r.
  pose proof (SFsub_sign (Prim2SF x) (Prim2SF y)
                (Prim2SF_valid x) (Prim2SF_valid y)) as H.
  unfold SFltb. rewrite (SFcompare_antisym (Prim2SF x) (Prim2SF y)).
  destruct (SFcompare (Prim2SF x) (Prim2SF y)) as [[]|];
    destruct (SF64sub (Prim2SF x) (Prim2SF y)) as [?|?| |? ? ?];
    cbn in *; split; intros H'; subst; try contradiction; try discriminate;
    reflexivity.
Qed.

Lemma binary_round_aux_sign (s : bool) (m e : Z) (l : location) :
  match binary_round_aux prec emax s m e l with
  | S754_zero s' | S754_infinity s' | S754_finite s' _ _ => s' = s
  | S754_nan => True
  end.
Proof.
  unfold binary_round_aux.
  destruct (shr_fexp prec emax m e l) as [mrs' e'].
  destruct (shr_fexp prec emax _ e' loc_Exact) as [mrs'' e''].
  destruct (shr_m mrs''); try reflexivity.
  destruct (e'' <=? emax - prec); reflexivity.
Qed.

(** A quotient by a positive number has the sign of the dividend. *)
Lemma SFdiv_sign (d s : spec_float) (b : bool) :
  signed false s -> signed b (SF64div d s) -> signed b d.
Proof.
  intros Hs. destruct s as [?|ss| |ss ms es]; try contradiction;
    cbn in Hs; subst ss;
    destruct d as [sd|sd| |sd md ed]; cbn [SF64div SFdiv signed];
    rewrite ?xorb_false_r; try tauto.
  destruct (SFdiv_core_binary prec emax (Z.pos md) ed (Z.pos ms) es)
    as [[mz ez] lz].
  pose proof (binary_round_aux_sign sd mz ez lz) as H.
  destruct (binary_round_aux prec emax sd mz ez lz); cbn; intros;
    try contradiction; congruence.
Qed.

(** A square root that is neither zero nor [NaN] is positive. *)
Lemma SFsqrt_signed (v : spec_float) :
  SFeqb (SF64sqrt v) (S754_zero false) = false ->
  SF64sqrt v = S754_nan \/ signed false (SF64sqrt v).
Proof.
  unfold SF64sqrt, SFsqrt.
  destruct v as [[]|[]| |[] m e]; cbn; try discriminate; auto.
  destruct (SFsqrt_core_binary prec emax (Z.pos m) e) as [[mz ez] lz].
  pose proof (binary_round_aux_sign false mz ez lz) as H.
  destruct (binary_round_aux prec emax false mz ez lz) as [?|?| |? ? ?];
    cbn; subst; try discriminate; auto.
Qed.

End Binary64Sign.

(** The z-score as every branch of the source computes it, from a return
    [x], a mean [m] and the root of a variance [v]. *)
Lemma zscore_sign (x m v : float) :
  let std := PrimFloat.sqrt v in
  let zs := if (std =? 0)%float then 0%float else ((x - m) / std)%float in
  ((0 <? zs)%float = true -> (m <? x)%float = true) /\
  ((zs <? 0)%float = true -> (x <? m)%float = true).
Proof.
  intros std zs. subst zs.
  destruct (std =? 0)%float eqn:Hstd; [split; discriminate|].
  subst std. rewrite FloatAxioms.eqb_spec, FloatAxioms.sqrt_spec in Hstd.
  change (Prim2SF 0) with (S754_zero false) in Hstd.
  assert (Hdiv : forall b,
             signed b (Prim2SF ((x - m) / PrimFloat.sqrt v)) ->
             signed b (Prim2SF (x - m))).
  { intros b. rewrite FloatAxioms.div_spec, FloatAxioms.sqrt_spec.
    destruct (SFsqrt_signed _ Hstd) as [->|Hpos].
    - destruct (Prim2SF (x - m)); cbn; tauto.
    - now apply SFdiv_sign. }
  destruct (sub_sign x m) as [Hpos Hneg]. split; intros Hz.
  - apply Hpos. rewrite FloatAxioms.ltb_spec in *.
    change (Prim2SF 0) with (S754_zero false) in *.
    apply SFltb_zero_l, Hdiv, SFltb_zero_l, Hz.
  - apply Hneg. rewrite FloatAxioms.ltb_spec in *.
    change (Prim2SF 0) with (S754_zero false) in *.
    apply SFltb_zero_r, Hdiv, SFltb_zero_r, Hz.
Qed.

Lemma local_stats_root (returns : list PeriodReturn) (windowSize i : nat) :
  exists v, (local_stats returns windowSize i).2 = PrimFloat.sqrt v.
Proof.
  unfold local_stats, warmup_stats, steady_stats.
  destruct (i <? windowSize); eexists; reflexivity.
Qed.

(** X12.  A z-score never points the wrong way.  In both modes, a point
    with a z-score above zero has a return above the mean it was measured
    against, and a point with a z-score below zero has a return below it:
    rounding can flatten a bar to zero but cannot flip it. *)
Theorem z_sign_matches_deviation (returns : list PeriodReturn) (windowSize : nat) :
  Forall (sign_agrees (mean (computeStatsFullSample returns)))
         (data (computeStatsFullSample returns)) /\
  exists res,
    computeStatsRolling returns windowSize = Some res /\
    Forall (fun p => exists m, localMean p = Some m /\ sign_agrees m p) (data res).
Proof.
  split.
  - rewrite computeStatsFullSample_data.
    apply Forall_fmap, Forall_forall. intros r _.
    destruct returns as [|r0 returns]; [split; discriminate|].
    unfold sign_agrees, full_point, computeStatsFullSample.
    cbn [length Nat.eqb mean std z ret]. apply zscore_sign.
  - destruct (computeStatsRolling_data returns windowSize) as (res & Hres & Hdata).
    exists res. split; [exact Hres|]. rewrite Hdata.
    apply Forall_imap. intros i r _.
    exists (local_stats returns windowSize i).1. split; [reflexivity|].
    destruct (local_stats_root returns windowSize i) as [v Hv].
    unfold sign_agrees, rolling_point. cbn [z ret]. rewrite Hv.
    apply zscore_sign.
Qed.


(** ** Rolling-window normalizer: the aggregate figures *)

Lemma rolling_loop_totals (returns : list PeriodReturn) (windowSize : nat) :
  forall n a st,
    a + n <= length returns ->
    exists st' points,
      rolling_loop returns windowSize (seq a n) st = Some st' /\
      rs_data st' = rs_data st ++ points /\
      length points = n /\
      totalMean st' = sum_from (totalMean st) (omap localMean points) /\
      totalStd st' = sum_from (totalStd st) (omap localStd points) /\
      validCount st' = count_up (validCount st) points.
Proof.
  induction n as [|n IH]; intros a st Hle.
  - exists st, []. cbn. rewrite app_nil_r. repeat split.
  - destruct (lookup_lt_is_Some_2 returns a ltac:(lia)) as [cur Hcur].
    cbn [seq rolling_loop]. rewrite rolling_step_unfold, Hcur.
    cbn [mbind option_bind].
    edestruct (IH (S a)) as (st' & points & Hloop & Hdata & Hlen & Hm & Hs & Hc);
      [lia|].
    exists st', (rolling_point (local_stats returns windowSize a) cur :: points).
    split; [exact Hloop|]. cbv zeta in *.
    cbn [rs_data totalMean totalStd validCount] in *.
    rewrite <- app_assoc in Hdata.
    repeat split; try assumption. cbn [length]. lia.
Qed.

(** Counting up from zero over at least one point ends above zero. *)
Lemma count_up_signed {A} (points : list A) (c : float) :
  Prim2SF c = S754_zero false \/ signed false (Prim2SF c) ->
  points <> [] ->
  signed false (Prim2SF (count_up c points)).
Proof.
  assert (Hstep : forall c0,
             Prim2SF c0 = S754_zero false \/ signed false (Prim2SF c0) ->
             signed false (Prim2SF (c0 + 1))).
  { intros c0 Hc0. rewrite FloatAxioms.add_spec.
    change (Prim2SF 1) with SFone64. pose proof (Prim2SF_valid c0) as Hv.
    destruct Hc0 as [->|Hpos]; [reflexivity|].
    destruct (Prim2SF c0) as [?|s0| |s0 m0 e0]; try contradiction;
      cbn in Hpos; subst s0; [reflexivity|].
    cbn [valid_binary] in Hv. apply bounded_inv in Hv as (He0 & _).
    unfold SF64add, SFone64, SFadd. cbn [cond_Zopp].
    set (ez := Z.min e0 (-52)).
    pose proof (binary_normalize_sign
                  (Z.pos (shl_align m0 e0 ez).1
                   + Z.pos (shl_align 4503599627370496 (-52) ez).1)%Z
                  ez ltac:(subst ez; unfold emin, emax, prec in *; lia)) as H.
    destruct (Z.pos _ + Z.pos _)%Z eqn:E; try lia. exact H. }
  revert c. induction points as [|x points IH]; intros c Hc Hne; [congruence|].
  cbn [count_up foldl]. destruct points as [|y points].
  - cbn. now apply Hstep.
  - apply (IH (c + 1)%float); [right; now apply Hstep|discriminate].
Qed.

(** X13.  The aggregate figures of the rolling mode are averages of the
    local ones.  For a non-empty series, [validCount] ends above zero, so
    the guarded divisions are taken: the result's [mean] is the sum of the
    points' local means over the count of points, and its [std] the sum of
    their local stds over the same count. *)
Theorem rolling_aggregates_are_averages (returns : list PeriodReturn)
    (windowSize : nat) :
  returns <> [] ->
  exists res,
    computeStatsRolling returns windowSize = Some res /\
    let count := count_up 0 (data res) in
    (0 <? count)%float = true /\
    mean res = (sum_from 0 (omap localMean (data res)) / count)%float /\
    std res = (sum_from 0 (omap localStd (data res)) / count)%float.
Proof.
  intros Hne. unfold computeStatsRolling.
  destruct (rolling_loop_totals returns windowSize (length returns) 0
              {| rs_data := []; totalMean := 0; totalStd := 0; validCount := 0 |})
    as (st' & points & Hloop & Hdata & Hlen & Hm & Hs & Hc); [simpl; lia|].
  rewrite Hloop. cbn [mbind option_bind]. eexists. split; [reflexivity|].
  cbn [data mean std rs_data totalMean totalStd validCount app] in *.
  rewrite Hdata, <- Hc, <- Hm, <- Hs.
  assert (Hpos : (0 <? validCount st')%float = true).
  { rewrite Hc, FloatAxioms.ltb_spec.
    change (Prim2SF 0) with (S754_zero false). apply SFltb_zero_l.
    apply count_up_signed; [left; reflexivity|].
    intros ->. destruct returns; [congruence|discriminate]. }
  rewrite Hpos. repeat split.
Qed.

Lemma rolling_aggregates_are_averages_witness :
  exists res,
    computeStatsRolling scenario_returns 2 = Some res /\
    let count := count_up 0 (data res) in
    (0 <? count)%float = true /\
    mean res = (sum_from 0 (omap localMean (data res)) / count)%float /\
    std res = (sum_from 0 (omap localStd (data res)) / count)%float.
Proof.
  apply (rolling_aggregates_are_averages scenario_returns 2). discriminate.
Defined.


(** ** The proxy: which prices it hands out *)

Lemma with_close_kept (t c : float) (timestamps : list float)
    (closes : list (option float)) :
  with_close (t :: timestamps) (Some c :: closes)
  = (t, c) :: with_close timestamps closes.
Proof. reflexivity. Qed.

Lemma with_close_dropped (t : float) (timestamps : list float)
    (closes : list (option float)) :
  with_close (t :: timestamps) (None :: closes) = with_close timestamps closes.
Proof. reflexivity. Qed.

Section PriceBuilderFacts.
Variable isoDate : float -> option string.

Lemma build_loop_past_closes (timestamps : list float)
    (closes : list (option float)) (n a : nat) (acc : list PricePoint) :
  length closes <= a ->
  build_loop isoDate timestamps closes (seq a n) acc = Some acc.
Proof.
  revert a. induction n as [|n IH]; intros a Ha; [reflexivity|].
  cbn [seq build_loop]. rewrite lookup_ge_None_2 by lia. apply IH. lia.
Qed.

Lemma build_loop_spec (timestamps : list float) (closes : list (option float)) :
  forall n a acc,
    a + n = length timestamps ->
    build_loop isoDate timestamps closes (seq a n) acc =
    (rest ← mapM (dated isoDate)
              (with_close (drop a timestamps) (drop a closes));
     Some (acc ++ rest)).
Proof.
  induction n as [|n IH]; intros a acc Hlen.
  - rewrite drop_ge by lia. cbn. now rewrite app_nil_r.
  - destruct (lookup_lt_is_Some_2 timestamps a ltac:(lia)) as [t Ht].
    rewrite (drop_S _ _ _ Ht). cbn [seq build_loop].
    destruct (closes !! a) as [oc|] eqn:Hc.
    + rewrite (drop_S _ _ _ Hc). destruct oc as [c|].
      * rewrite with_close_kept, Ht. cbn [mbind option_bind mapM].
        destruct (dated isoDate (t, c)) as [p|]; [|reflexivity].
        cbn [mbind option_bind]. rewrite IH by lia.
        destruct (mapM _ _) as [rest|]; cbn; [|reflexivity].
        now rewrite <- app_assoc.
      * rewrite with_close_dropped. apply IH. lia.
    + apply lookup_ge_None_1 in Hc.
      rewrite (drop_ge closes) by exact Hc.
      rewrite build_loop_past_closes by lia.
      unfold with_close. rewrite zip_with_nil_r. cbn. now rewrite app_nil_r.
Qed.

End PriceBuilderFacts.

Lemma with_close_closes (timestamps : list float) (closes : list (option float)) :
  map snd (with_close timestamps closes)
  = omap id (take (length timestamps) closes).
Proof.
  unfold with_close. revert closes.
  induction timestamps as [|t timestamps IH]; intros [|oc closes];
    try reflexivity.
  cbn [zip zip_with omap length take]. cbn [snd].
  destruct oc as [c|]; cbn; now rewrite IH.
Qed.

Lemma omap_length_le {A B} (f : A -> option B) (l : list A) :
  length (omap f l) <= length l.
Proof.
  induction l as [|x l IH]; cbn; [lia|]. destruct (f x); cbn; lia.
Qed.

(** X14.  The proxy drops the days without a close and nothing else.  When
    it answers, the closes of its prices are the non-null entries of the
    provider's [close] array, in order, as far as the timestamps reach, and
    each price is dated by the platform from its own timestamp; it raises
    exactly when the platform rejects the timestamp of a kept day. *)
Theorem buildPrices_keeps_closes (isoDate : float -> option string)
    (timestamps : list float) (closes : list (option float)) :
  buildPrices isoDate timestamps closes
    = mapM (dated isoDate) (with_close timestamps closes) /\
  map snd (with_close timestamps closes)
    = omap id (take (length timestamps) closes) /\
  forall prices,
    buildPrices isoDate timestamps closes = Some prices ->
    map close prices = omap id (take (length timestamps) closes) /\
    length prices <= length timestamps /\
    length prices <= length closes.
Proof.
  assert (Hbuild : buildPrices isoDate timestamps closes
                   = mapM (dated isoDate) (with_close timestamps closes)).
  { unfold buildPrices.
    rewrite (build_loop_spec isoDate timestamps closes (length timestamps) 0 [])
      by reflexivity.
    rewrite !drop_0. destruct (mapM _ _); reflexivity. }
  split; [exact Hbuild|]. split; [apply with_close_closes|].
  intros prices Hprices. rewrite Hbuild in Hprices.
  apply mapM_Some in Hprices.
  assert (Hcl : map close prices = map snd (with_close timestamps closes)).
  { clear Hbuild. induction Hprices as [|tc p tcs ps Hp _ IH]; [reflexivity|].
    cbn [map]. rewrite IH. f_equal. unfold dated in Hp.
    destruct (isoDate _); [|discriminate]. now inversion Hp. }
  rewrite with_close_closes in Hcl. split; [exact Hcl|].
  assert (Hlen : length prices
                 = length (omap id (take (length timestamps) closes)))
    by (now rewrite <- Hcl, length_map).
  pose proof (omap_length_le id (take (length timestamps) closes)) as Hle.
  rewrite length_take in Hle. lia.
Qed.

(** ** Binary64: operations that cannot yield [NaN] *)

Section Binary64NotNaN.
Local Open Scope Z_scope.

Lemma shr_fexp_nonneg (m e : Z) (l : location) :
  0 <= m -> 0 <= shr_m (shr_fexp prec emax m e l).1.
Proof.
  intros Hm. unfold shr_fexp, shr.
  destruct (fexp prec emax (Zdigits2 m + e) - e) as [|q|q]; cbn [fst];
    rewrite ?shr_record_of_loc_m; try exact Hm.
  apply iter_shr_1_lower. rewrite shr_record_of_loc_m. lia.
Qed.

Lemma binary_round_aux_not_nan (s : bool) (m e : Z) (l : location) :
  0 <= m -> binary_round_aux prec emax s m e l <> S754_nan.
Proof.
  intros Hm. unfold binary_round_aux.
  pose proof (shr_fexp_nonneg m e l Hm) as H1.
  destruct (shr_fexp prec emax m e l) as [mrs' e']. cbn [fst] in H1.
  pose proof (round_nearest_even_ge (shr_m mrs') (loc_of_shr_record mrs')) as Hr.
  set (m2 := round_nearest_even _ _) in *.
  pose proof (shr_fexp_nonneg m2 e' loc_Exact ltac:(lia)) as H2.
  destruct (shr_fexp prec emax m2 e' loc_Exact) as [mrs'' e'']. cbn [fst] in H2.
  destruct (shr_m mrs''); try lia; try discriminate.
  destruct (e'' <=? emax - prec); discriminate.
Qed.

Lemma SFdiv_core_nonneg (m1 m2 : positive) (e1 e2 : Z) :
  0 <= (SFdiv_core_binary prec emax (Z.pos m1) e1 (Z.pos m2) e2).1.1.
Proof.
  unfold SFdiv_core_binary.
  set (s := e1 - e2 - _).
  set (m' := match s with 0 => Z.pos m1 | Z.pos _ => Z.shiftl (Z.pos m1) s
                        | Z.neg _ => 0 end).
  assert (Hm' : 0 <= m').
  { subst m'. destruct s; try lia. apply Z.shiftl_nonneg. lia. }
  pose proof (Z.div_pos m' (Z.pos m2) Hm' ltac:(lia)) as Hq.
  unfold Z.div in Hq. destruct (Z.div_eucl m' (Z.pos m2)) as [q r]. exact Hq.
Qed.

Lemma SFdiv_finite_not_nan (sx : bool) (mx : positive) (ex : Z) (y : spec_float) :
  y <> S754_nan -> SF64div (S754_finite sx mx ex) y <> S754_nan.
Proof.
  intros Hy. destruct y as [sy|sy| |sy my ey]; try discriminate; [congruence|].
  unfold SF64div, SFdiv.
  pose proof (SFdiv_core_nonneg mx my ex ey) as Hq.
  destruct (SFdiv_core_binary prec emax (Z.pos mx) ex (Z.pos my) ey)
    as [[mz ez] lz]. now apply binary_round_aux_not_nan.
Qed.

Lemma SFmul_finite_not_nan (x : spec_float) (sk : bool) (mk : positive) (ek : Z) :
  x <> S754_nan -> SF64mul x (S754_finite sk mk ek) <> S754_nan.
Proof.
  intros Hx. destruct x as [sx|sx| |sx mx ex]; try discriminate; [congruence|].
  unfold SF64mul, SFmul. apply binary_round_aux_not_nan. lia.
Qed.

Lemma of_nat_not_nan (n : nat) : Prim2SF (JS.of_nat n) <> S754_nan.
Proof.
  unfold JS.of_nat. rewrite FloatAxioms.of_uint63_spec.
  pose proof (Uint63.to_Z_bounded (Uint63.of_Z (Z.of_nat n))) as Hb.
  pose proof (binary_normalize_sign
                (Uint63.to_Z (Uint63.of_Z (Z.of_nat n))) 0 ltac:(cbv; discriminate))
    as H.
  destruct (Uint63.to_Z _); try lia.
  - rewrite H. discriminate.
  - intros Hn. now rewrite Hn in H.
Qed.

End Binary64NotNaN.

Lemma is_nan_Prim2SF (x : float) : is_nan x = false <-> Prim2SF x <> S754_nan.
Proof.
  rewrite is_nan_key. unfold fkey.
  destruct (Prim2SF x); cbn; split; congruence.
Qed.

(** ** Bar geometry *)

Lemma js_max_ge (a b : float) :
  is_nan a = false -> is_nan b = false ->
  (a <=? js_max a b)%float = true.
Proof.
  intros Ha Hb. unfold js_max. rewrite Ha, Hb. cbn [orb].
  destruct (a <? b)%float eqn:Hlt; cbn [orb].
  - now apply ltb_leb.
  - destruct (PrimFloat.Leibniz.eqb b zero) eqn:Eb,
             (PrimFloat.Leibniz.eqb a neg_zero) eqn:Ea; cbn [andb];
      try (now apply leb_refl).
    apply FloatAxioms.Leibniz.eqb_spec in Eb, Ea. subst. reflexivity.
Qed.

(** X15.  Bars keep a width.  Whatever the number of periods on the chart,
    the bar width is a number of at least 1.5 and the gap between bars a
    number of at least 1: no [NaN] reaches the layout, and the division by
    the number of periods cannot produce one. *)
Theorem bars_keep_width (filteredData : list NormalizedPoint) :
  (0x1.8p0 <=? barWidth filteredData)%float = true /\
  (1 <=? gap filteredData)%float = true.
Proof.
  assert (Hbar : (0x1.8p0 <=? barWidth filteredData)%float = true).
  { unfold barWidth. cbv zeta.
    repeat (destruct (_ <=? _); [reflexivity|]).
    apply js_max_ge; [reflexivity|].
    apply is_nan_Prim2SF. rewrite FloatAxioms.div_spec.
    change (Prim2SF 800) with (S754_finite false 7036874417766400 (-43)).
    apply SFdiv_finite_not_nan, of_nat_not_nan. }
  split; [exact Hbar|].
  unfold gap. apply js_max_ge; [reflexivity|].
  apply is_nan_Prim2SF. rewrite FloatAxioms.mul_spec.
  change (Prim2SF 0x1.999999999999ap-3)
    with (S754_finite false 7205759403792794 (-55)).
  apply SFmul_finite_not_nan, is_nan_Prim2SF.
  exact (leb_not_nan _ _ Hbar).
Qed.

(** ** The chart: what reaches it *)

Lemma StronglySorted_map {A B} (R : B -> B -> Prop) (f : A -> B) (l : list A) :
  StronglySorted (fun a b => R (f a) (f b)) l <-> StronglySorted R (map f l).
Proof.
  induction l as [|x l IH]; cbn [map].
  - split; constructor.
  - split; intros H; apply StronglySorted_inv in H as [Hs Hx]; constructor.
    + now apply IH.
    + apply Forall_forall. intros y Hy.
      apply list_elem_of_fmap in Hy as (a & -> & Ha).
      rewrite Forall_forall in Hx. now apply Hx.
    + now apply IH.
    + apply Forall_forall. intros a Ha. rewrite Forall_forall in Hx.
      apply Hx. apply list_elem_of_fmap. eauto.
Qed.

Lemma StronglySorted_filter {A} (R : A -> A -> Prop) (f : A -> bool) (l : list A) :
  StronglySorted R l -> StronglySorted R (List.filter f l).
Proof.
  induction 1 as [|x l Hs IH Hx]; cbn [List.filter]; [constructor|].
  destruct (f x); [|exact IH]. constructor; [exact IH|].
  apply Forall_forall. intros y Hy.
  apply list_elem_of_In, filter_In in Hy as [Hy _].
  rewrite Forall_forall in Hx. now apply Hx, list_elem_of_In.
Qed.

Lemma computeReturns_ascending (prices : list PricePoint) (period : string) :
  prices_ascending prices ->
  exists returns,
    computeReturns prices period = Some returns /\ returns_ascending returns.
Proof.
  intros Hasc. pose proof (step_of_pos period) as Hstep.
  destruct (returns_loop_spec prices (step_of period) Hstep
              (length prices) (step_of period) [])
    as (out & Hout & _ & Hnth); [nia|].
  exists out. unfold computeReturns. simpl in Hout. split; [exact Hout|].
  assert (Hss : StronglySorted (fun a b => date_lt (p_date a) (p_date b)) prices).
  { apply Sorted_StronglySorted; [|exact Hasc].
    intros x y z0. apply date_lt_trans. }
  apply lookup_StronglySorted. intros k1 k2 a b Hk Ha Hb.
  apply Hnth, return_at_date in Ha as (pa & Hpa & ->).
  apply Hnth, return_at_date in Hb as (pb & Hpb & ->).
  eapply (StronglySorted_lookup _ prices _ _ pa pb Hss); [|eassumption..]. nia.
Qed.

Lemma app_stats_map_dates (sigmaMode : string) (rollingWindow : nat)
    (returns : list PeriodReturn) :
  exists stats,
    app_stats sigmaMode rollingWindow returns = Some stats /\
    map date (data stats) = map r_date returns.
Proof.
  unfold app_stats. destruct (String.eqb sigmaMode "rolling").
  - destruct (computeStatsRolling_data returns rollingWindow)
      as (res & Hres & Hdata).
    exists res. split; [exact Hres|]. rewrite Hdata. apply list_eq. intros i.
    rewrite !list_lookup_fmap, list_lookup_imap.
    destruct (returns !! i); reflexivity.
  - eexists. split; [reflexivity|]. rewrite computeStatsFullSample_data.
    rewrite map_map. reflexivity.
Qed.

(** X16.  The recomputation never throws.  Whatever the state of the
    controls (prices loaded or not, sorted or not, any period, mode, window
    and date bounds), the returns, the statistics and the filtered series
    are all computed; there is one point per return before filtering, and
    the filtered series is a subsequence of it. *)
Theorem recomputation_total (priceData : option (list PricePoint))
    (period sigmaMode : string) (rollingWindow : nat) (startDate endDate : string) :
  exists returns stats points,
    app_returns priceData period = Some returns /\
    app_stats sigmaMode rollingWindow returns = Some stats /\
    app_filteredData priceData period sigmaMode rollingWindow startDate endDate
      = Some points /\
    length (data stats) = length returns /\
    sublist points (data stats).
Proof.
  assert (Hret : exists returns, app_returns priceData period = Some returns).
  { destruct priceData as [prices|]; [|eexists; reflexivity].
    destruct (computeReturns_dates prices period) as (returns & Hr & _). eauto. }
  destruct Hret as [returns Hret].
  destruct (app_stats_dates sigmaMode rollingWindow returns)
    as (stats & Hstats & Hlen & _).
  exists returns, stats, (filterRange (data stats) startDate endDate).
  unfold app_filteredData. rewrite Hret. cbn [mbind option_bind].
  rewrite Hstats. cbn [mbind option_bind]. repeat split; try assumption.
  unfold filterRange. destruct (_ || _); [reflexivity|apply filter_sublist].
Qed.

(** X17.  The bars are in date order.  For prices ascending by date, the
    series that reaches the chart is strictly ascending by date, in either
    mode and for every period, window and date range: no bar is out of
    place and no date is drawn twice. *)
Theorem chart_in_date_order (prices : list PricePoint)
    (period sigmaMode : string) (rollingWindow : nat) (startDate endDate : string) :
  prices_ascending prices ->
  exists points,
    app_filteredData (Some prices) period sigmaMode rollingWindow
      startDate endDate = Some points /\
    StronglySorted (fun a b => date_lt (date a) (date b)) points.
Proof.
  intros Hasc.
  destruct (computeReturns_ascending prices period Hasc) as (returns & Hret & Hsorted).
  destruct (app_stats_map_dates sigmaMode rollingWindow returns)
    as (stats & Hstats & Hdates).
  exists (filterRange (data stats) startDate endDate).
  unfold app_filteredData. cbn [app_returns]. rewrite Hret.
  cbn [mbind option_bind]. rewrite Hstats. cbn [mbind option_bind].
  split; [reflexivity|].
  assert (Hdata : StronglySorted (fun a b => date_lt (date a) (date b)) (data stats)).
  { apply (StronglySorted_map date_lt date). rewrite Hdates.
    apply (StronglySorted_map date_lt r_date). exact Hsorted. }
  unfold filterRange. destruct (_ || _); [exact Hdata|].
  now apply StronglySorted_filter.
Qed.

Lemma chart_in_date_order_witness :
  exists points,
    app_filteredData (Some scenario_prices) "daily" "full" 60
      "2024-01-02" "2024-01-04" = Some points /\
    StronglySorted (fun a b => date_lt (date a) (date b)) points.
Proof.
  apply (chart_in_date_order scenario_prices "daily" "full" 60
           "2024-01-02" "2024-01-04").
  repeat constructor.
Defined.
